(** * docker-logentries: the forwarding core of [index.js]

    A shallow embedding of the stream filter, the start-up sequence and the
    callback wiring of [index.js], and the properties of them that the
    specification states.

    Layout: the JavaScript data the program touches (module [JS]), the
    regular-expression engine it calls (class [RegExpEngine]), the
    configuration record, the [filter] transform, [connect], [start] and the
    event loop; then the theorems. *)

From Stdlib Require Import String Ascii List ZArith Bool Lia DecimalString.
From Stdlib Require DecimalPos.
Import ListNotations.
Open Scope string_scope.

(* ------------------------------------------------------------------------- *)
(** ** JavaScript values and plain objects *)
(* ------------------------------------------------------------------------- *)

Module JS.

(** The values an event can carry.  Text is kept as the bytes of its UTF-8
    encoding.  [Num] covers the integer-valued numbers that JavaScript prints
    in plain decimal notation; fractions, NaN and the infinities are outside
    the model.  An object is the list of its own enumerable properties in
    insertion order. *)
#[warnings="-register-all"]
Inductive value : Type :=
| Undefined
| Null
| Bool (b : bool)
| Num (z : Z)
| Str (s : string)
| Arr (xs : list value)
| Obj (ps : list (string * value)).

Definition props : Type := list (string * value).

(** The value of an [if (v)] test. *)
Definition truthy (v : value) : bool :=
  match v with
  | Undefined | Null => false
  | Bool b => b
  | Num z => negb (z =? 0)%Z
  | Str s => negb (s =? "")
  | Arr _ | Obj _ => true
  end.

(** Own-property lookup; the first entry of a key is the property. *)
Fixpoint get {A : Type} (ps : list (string * A)) (k : string) : option A :=
  match ps with
  | [] => None
  | (k', v) :: rest => if k' =? k then Some v else get rest k
  end.

(** [obj.k]: a property that is not there reads as [undefined]. *)
Definition prop (ps : props) (k : string) : value :=
  match get ps k with
  | Some v => v
  | None => Undefined
  end.

(** [obj[k] = v]: an existing property keeps its place, a new one goes last. *)
Fixpoint set {A : Type} (ps : list (string * A)) (k : string) (v : A)
  : list (string * A) :=
  match ps with
  | [] => [(k, v)]
  | (k', v') :: rest =>
      if k' =? k then (k', v) :: rest else (k', v') :: set rest k v
  end.

(** A key is an array index when it is the canonical decimal form of an
    integer between 0 and 2^32 - 2. *)
Definition array_index (k : string) : option N :=
  match NilZero.uint_of_string k with
  | None => None
  | Some u =>
      let n := N.of_uint u in
      if (NilZero.string_of_uint (N.to_uint n) =? k) && (n <=? 4294967294)%N
      then Some n else None
  end.

Fixpoint insert_by_index {A : Type} (n : N) (e : string * A)
  (l : list (N * (string * A))) : list (N * (string * A)) :=
  match l with
  | [] => [(n, e)]
  | (m, e') :: rest =>
      if (n <? m)%N then (n, e) :: l else (m, e') :: insert_by_index n e rest
  end.

Fixpoint index_props {A : Type} (ps : list (string * A))
  : list (N * (string * A)) :=
  match ps with
  | [] => []
  | (k, v) :: rest =>
      match array_index k with
      | Some n => insert_by_index n (k, v) (index_props rest)
      | None => index_props rest
      end
  end.

Fixpoint named_props {A : Type} (ps : list (string * A))
  : list (string * A) :=
  match ps with
  | [] => []
  | (k, v) :: rest =>
      match array_index k with
      | Some _ => named_props rest
      | None => (k, v) :: named_props rest
      end
  end.

(** The order in which [for ... in] and [JSON.stringify] visit the own
    properties: array indices ascending, then the other keys as inserted. *)
Definition own_props {A : Type} (ps : list (string * A))
  : list (string * A) :=
  map snd (index_props ps) ++ named_props ps.

Definition own_keys {A : Type} (ps : list (string * A)) : list string :=
  map fst (own_props ps).

Fixpoint join (sep : string) (l : list string) : string :=
  match l with
  | [] => ""
  | [s] => s
  | s :: rest => s ++ sep ++ join sep rest
  end.

Definition decimal (z : Z) : string := NilZero.string_of_int (Z.to_int z).

(** [String(v)]. *)
Fixpoint to_string (v : value) : string :=
  match v with
  | Undefined => "undefined"
  | Null => "null"
  | Bool true => "true"
  | Bool false => "false"
  | Num z => decimal z
  | Str s => s
  | Arr xs =>
      join "," (map (fun x => match x with
                              | Undefined | Null => ""
                              | _ => to_string x
                              end) xs)
  | Obj _ => "[object Object]"
  end.

Definition hex_digit (n : N) : ascii :=
  if (n <? 10)%N then ascii_of_N (48 + n) else ascii_of_N (87 + n).

(** One character of a JSON string literal. *)
Definition escape (c : ascii) : string :=
  let n := N_of_ascii c in
  if (n =? 34)%N then "\" ++ String c ""
  else if (n =? 92)%N then "\\"
  else if (n =? 8)%N then "\b"
  else if (n =? 9)%N then "\t"
  else if (n =? 10)%N then "\n"
  else if (n =? 12)%N then "\f"
  else if (n =? 13)%N then "\r"
  else if (n <? 32)%N then
    "\u00" ++ String (hex_digit (n / 16)) (String (hex_digit (n mod 16)) "")
  else String c "".

Fixpoint escape_all (s : string) : string :=
  match s with
  | EmptyString => ""
  | String c rest => escape c ++ escape_all rest
  end.

Definition dquote : string := String (ascii_of_N 34) "".

Definition quote (s : string) : string := dquote ++ escape_all s ++ dquote.

(** The members of an object literal: a property whose value has no JSON
    text ([undefined]) is left out. *)
Fixpoint members (ms : list (string * option string)) : list string :=
  match ms with
  | [] => []
  | (k, Some s) :: rest => (quote k ++ ":" ++ s) :: members rest
  | (_, None) :: rest => members rest
  end.

(** [JSON.stringify(v)]; [None] is the result [undefined]. *)
Fixpoint serialize (v : value) : option string :=
  match v with
  | Undefined => None
  | Null => Some "null"
  | Bool true => Some "true"
  | Bool false => Some "false"
  | Num z => Some (decimal z)
  | Str s => Some (quote s)
  | Arr xs =>
      Some ("[" ++ join "," (map (fun x => match serialize x with
                                           | Some s => s
                                           | None => "null"
                                           end) xs) ++ "]")
  | Obj ps =>
      Some ("{" ++ join ","
              (members (own_props
                          (map (fun kv => (fst kv, serialize (snd kv))) ps)))
              ++ "}")
  end.

(** [JSON.stringify(obj)] for a plain object, which is always text. *)
Definition stringify (ps : props) : string :=
  "{" ++ join ","
    (members (own_props (map (fun kv => (fst kv, serialize (snd kv))) ps)))
  ++ "}".

End JS.

(* ------------------------------------------------------------------------- *)
(** ** Exceptions *)
(* ------------------------------------------------------------------------- *)

Inductive exn : Type :=
| SyntaxError (pattern : string)
| TypeError (what : string)
| Error (message : string).

Inductive result (A : Type) : Type :=
| Ok (a : A)
| Throw (e : exn).

Arguments Ok {A} a.
Arguments Throw {A} e.

Definition bind {A B : Type} (r : result A) (k : A -> result B) : result B :=
  match r with
  | Ok a => k a
  | Throw e => Throw e
  end.

Notation "x <- r ;; k" := (bind r (fun x => k))
  (at level 61, r at next level, right associativity).

(* ------------------------------------------------------------------------- *)
(** ** The regular-expression engine *)
(* ------------------------------------------------------------------------- *)

(** [RegExp] and [String.prototype.match] belong to the JavaScript runtime,
    not to this program: [RegExp p] is [new RegExp(p)], with [None] for a
    pattern it rejects with a SyntaxError, and [matches r s] tells whether
    [s.match(r)] is not [null]. *)
Class RegExpEngine : Type := {
  regex : Type;
  RegExp : string -> option regex;
  matches : regex -> string -> bool
}.

(** A small engine for worked examples.  It knows patterns made of ordinary
    characters and [.], with an optional leading [^] and trailing [$], and
    agrees with JavaScript on them for ASCII subjects; any other pattern is
    outside of it and is turned down. *)
Module Simple.

Inductive atom : Type :=
| Lit (c : ascii)
| AnyChar.

Record pattern : Type := {
  from_start : bool;
  atoms : list atom;
  to_end : bool
}.

Definition special (c : ascii) : bool :=
  existsb (Ascii.eqb c)
    (list_ascii_of_string "\^$.*+?()[]{}|").

Fixpoint body (s : string) : option (list atom * bool) :=
  match s with
  | EmptyString => Some ([], false)
  | String c rest =>
      if (Ascii.eqb c "$") && (rest =? "") then Some ([], true)
      else
        match body rest with
        | None => None
        | Some (l, e) =>
            if Ascii.eqb c "." then Some (AnyChar :: l, e)
            else if special c then None
            else Some (Lit c :: l, e)
        end
  end.

Definition compile (s : string) : option pattern :=
  match s with
  | String "^" rest =>
      match body rest with
      | Some (l, e) => Some {| from_start := true; atoms := l; to_end := e |}
      | None => None
      end
  | _ =>
      match body s with
      | Some (l, e) => Some {| from_start := false; atoms := l; to_end := e |}
      | None => None
      end
  end.

Definition atom_ok (a : atom) (c : ascii) : bool :=
  match a with
  | Lit c' => Ascii.eqb c' c
  | AnyChar => negb (Ascii.eqb c (ascii_of_N 10) || Ascii.eqb c (ascii_of_N 13))
  end.

Fixpoint here (l : list atom) (e : bool) (s : string) : bool :=
  match l with
  | [] => if e then s =? "" else true
  | a :: l' =>
      match s with
      | EmptyString => false
      | String c rest => atom_ok a c && here l' e rest
      end
  end.

Fixpoint anywhere (l : list atom) (e : bool) (s : string) : bool :=
  here l e s ||
  match s with
  | EmptyString => false
  | String _ rest => anywhere l e rest
  end.

Definition test (p : pattern) (s : string) : bool :=
  if from_start p then here (atoms p) (to_end p) s
  else anywhere (atoms p) (to_end p) s.

Definition engine : RegExpEngine :=
  {| regex := pattern; RegExp := compile; matches := test |}.

End Simple.

(* ------------------------------------------------------------------------- *)
(** ** Configuration *)
(* ------------------------------------------------------------------------- *)

(** The fields of [opts] that [start] and [connect] read.  A channel flag or a
    token that was never set is [None].  The four patterns are text, empty
    when not in use, which is their default on the command line; with text,
    [opts.matchByName != ''] is the test that the text is not empty. *)
Record options : Type := {
  logs : option bool;
  stats : option bool;
  dockerEvents : option bool;
  logstoken : option string;
  statstoken : option string;
  eventstoken : option string;
  matchByName : string;
  matchByImage : string;
  skipByName : string;
  skipByImage : string;
  add : option JS.props;
  secure : bool;
  server : string;
  port : Z
}.

(** [if (token)] for a token that is text or was never set. *)
Definition token_set (t : option string) : bool :=
  match t with
  | Some s => negb (s =? "")
  | None => false
  end.

Definition LF : string := String (ascii_of_N 10) "".

(* ------------------------------------------------------------------------- *)
(** ** The [filter] transform *)
(* ------------------------------------------------------------------------- *)

(** An event as the transform holds it: its own properties and, once an
    assignment to [__proto__] has replaced it, its prototype.  [None] is the
    prototype every plain object starts with, [Object.prototype]. *)
Record object : Type := {
  fields : JS.props;
  parent : option JS.value
}.

(** The event as its source emits it: a plain object. *)
Definition raw (ps : JS.props) : object := {| fields := ps; parent := None |}.

(** What a read finds along the prototype chain, past the own properties,
    among the members that are data: the own properties of a prototype that
    is an object, the elements and the length of one that is an array. *)
Definition inherited (parent : option JS.value) (k : string) : JS.value :=
  match parent with
  | Some (JS.Obj ps) => JS.prop ps k
  | Some (JS.Arr xs) =>
      match JS.array_index k with
      | Some n => nth (N.to_nat n) xs JS.Undefined
      | None => if k =? "length" then JS.Num (Z.of_nat (length xs))
                else JS.Undefined
      end
  | _ => JS.Undefined
  end.

(** [obj.k]. *)
Definition read (obj : object) (k : string) : JS.value :=
  match JS.get (fields obj) k with
  | Some v => v
  | None => inherited (parent obj) k
  end.

Definition has_own (proto : JS.props) (key : string) : bool :=
  match JS.get proto key with
  | Some _ => true
  | None => false
  end.

(** Whether an assignment to [obj.__proto__] reaches the setter that
    [Object.prototype] holds: the object has no property of that name, its
    chain leads to [Object.prototype], and no object on the way has such a
    property. *)
Definition reaches_setter (obj : object) : bool :=
  negb (has_own (fields obj) "__proto__")
  && match parent obj with
     | Some JS.Null => false
     | Some (JS.Obj ps) => negb (has_own ps "__proto__")
     | _ => true
     end.

(** [obj[key] = v].  Under the key [__proto__] the setter replaces the
    prototype when [v] is an object or [null] and does nothing otherwise: it
    adds no property. *)
Definition assign (obj : object) (key : string) (v : JS.value) : object :=
  if (key =? "__proto__") && reaches_setter obj then
    match v with
    | JS.Null | JS.Obj _ | JS.Arr _ =>
        {| fields := fields obj; parent := Some v |}
    | _ => obj
    end
  else {| fields := JS.set (fields obj) key v; parent := parent obj |}.

Definition not_a_function : string := "proto.hasOwnProperty is not a function".

(** The body of the loop of [addAll].  [proto.hasOwnProperty] is the method
    of [Object.prototype] unless [proto] has a property of that name; such a
    property holds data, and calling it throws. *)
Definition merge_step (proto : JS.props) (obj : result object) (key : string)
  : result object :=
  obj <- obj ;;
  if has_own proto "hasOwnProperty" then Throw (TypeError not_a_function)
  else if has_own proto key then Ok (assign obj key (JS.prop proto key))
  else Ok obj.

(** [addAll(proto, obj)]. *)
Definition addAll (proto : option JS.props) (obj : object) : result object :=
  match proto with
  | None => Ok obj
  | Some proto => fold_left (merge_step proto) (JS.own_keys proto) (Ok obj)
  end.

Section Filter.

Context {engine : RegExpEngine}.

Definition new_RegExp (p : string) : result regex :=
  match RegExp p with
  | Some r => Ok r
  | None => Throw (SyntaxError p)
  end.

(** The token chosen for the event. *)
Definition select_token (opts : options) (obj : object) : option string :=
  if JS.truthy (read obj "line") then logstoken opts
  else if JS.truthy (read obj "type") then eventstoken opts
  else if JS.truthy (read obj "stats") then statstoken opts
  else Some "".

(** An inclusive check: [passes_regex] turns false when the text does not
    match. *)
Definition must_match (pattern text : string) (passes_regex : bool)
  : result bool :=
  if pattern =? "" then Ok passes_regex
  else
    regex <- new_RegExp pattern ;;
    Ok (if negb (matches regex text) then false else passes_regex).

(** An exclusive check: [passes_regex] turns false when the text matches. *)
Definition must_not_match (pattern text : string) (passes_regex : bool)
  : result bool :=
  if pattern =? "" then Ok passes_regex
  else
    regex <- new_RegExp pattern ;;
    Ok (if matches regex text then false else passes_regex).

(** The value of [passes_regex] after the four checks. *)
Definition passes_regex (opts : options) (obj : object) : result bool :=
  let name := JS.to_string (read obj "name") in
  let image := JS.to_string (read obj "image") in
  p <- must_match (matchByName opts) name true ;;
  p <- must_match (matchByImage opts) image p ;;
  p <- must_not_match (skipByName opts) name p ;;
  must_not_match (skipByImage opts) image p.

(** The transform after the merge, lines 43 to 91: the chunks it pushes, in
    order, or the exception it throws. *)
Definition route (opts : options) (obj : object) : result (list string) :=
  let token := select_token opts obj in
  passes <- passes_regex opts obj ;;
  match token with
  | Some token =>
      if negb (token =? "") && passes
      then Ok [token; " "; JS.stringify (fields obj); LF]
      else Ok []
  | None => Ok []
  end.

(** One call of the transform on an event of a source. *)
Definition filter (opts : options) (obj : JS.props) : result (list string) :=
  obj <- addAll (add opts) (raw obj) ;;
  route opts obj.

End Filter.

(* ------------------------------------------------------------------------- *)
(** ** Streams, transports and the effects of the program *)
(* ------------------------------------------------------------------------- *)

(** The three sources [start] can open. *)
Inductive channel : Type :=
| Logs
| Stats
| DockerEvents.

Definition channel_eqb (a b : channel) : bool :=
  match a, b with
  | Logs, Logs | Stats, Stats | DockerEvents, DockerEvents => true
  | _, _ => false
  end.

(** What the program does to the outside, in the order it does it.  A
    transport is named by its rank among the streams [connect] has made. *)
Inductive action : Type :=
| ConsoleLog (message : string)
| AllContainers
| OpenSource (c : channel)
| PipeToFilter (c : channel)
| TlsConnect (stream : nat) (port : Z) (server : string)
| NetConnect (stream : nat) (port : Z) (server : string)
| Unpipe (stream : nat)
| PipeOut (stream : nat)
| Watch (stream : nat)
| WatchSource (c : channel)
| Unwatch (stream : nat)
| Destroy (stream : nat)
| Write (stream : nat) (chunk : string).

(** The variables of [start] and the callbacks that are still registered.
    [noRestart] is [None] while it is the initial empty function and
    [Some o] once it is the canceller that [eos(out, pipe)] returned for
    transport [o]. *)
Record state : Type := {
  out : option nat;
  noRestart : option nat;
  streamsOpened : Z;
  handles : list channel;   (* which of loghose, stats, dockerEvents hold a stream *)
  sources : list channel;   (* sources whose end-of-stream callback has not run *)
  feeding : list channel;   (* sources that are piped into [filter] *)
  piped : list nat;         (* the transports that get what [filter] pushes *)
  watched : list nat;       (* transports whose end will call [pipe] *)
  handshakes : list nat;    (* transports whose [onSecure] has not run *)
  opened : nat;             (* how many transports [connect] has made *)
  log : list action
}.

Inductive process : Type :=
| Running (s : state)
| Crashed (e : exn) (s : state).

Definition initial : state :=
  {| out := None; noRestart := None; streamsOpened := 0; handles := [];
     sources := []; feeding := []; piped := []; watched := [];
     handshakes := []; opened := 0; log := [] |}.

Definition emit (a : action) (s : state) : state :=
  {| out := out s; noRestart := noRestart s; streamsOpened := streamsOpened s;
     handles := handles s; sources := sources s; feeding := feeding s;
     piped := piped s;
     watched := watched s; handshakes := handshakes s; opened := opened s;
     log := log s ++ [a] |}.

Definition set_out (o : option nat) (s : state) : state :=
  {| out := o; noRestart := noRestart s; streamsOpened := streamsOpened s;
     handles := handles s; sources := sources s; feeding := feeding s;
     piped := piped s;
     watched := watched s; handshakes := handshakes s; opened := opened s;
     log := log s |}.

Definition set_noRestart (o : option nat) (s : state) : state :=
  {| out := out s; noRestart := o; streamsOpened := streamsOpened s;
     handles := handles s; sources := sources s; feeding := feeding s;
     piped := piped s;
     watched := watched s; handshakes := handshakes s; opened := opened s;
     log := log s |}.

Definition set_streamsOpened (n : Z) (s : state) : state :=
  {| out := out s; noRestart := noRestart s; streamsOpened := n;
     handles := handles s; sources := sources s; feeding := feeding s;
     piped := piped s;
     watched := watched s; handshakes := handshakes s; opened := opened s;
     log := log s |}.

Definition set_handles (l : list channel) (s : state) : state :=
  {| out := out s; noRestart := noRestart s; streamsOpened := streamsOpened s;
     handles := l; sources := sources s; feeding := feeding s;
     piped := piped s;
     watched := watched s; handshakes := handshakes s; opened := opened s;
     log := log s |}.

Definition set_sources (l : list channel) (s : state) : state :=
  {| out := out s; noRestart := noRestart s; streamsOpened := streamsOpened s;
     handles := handles s; sources := l; feeding := feeding s;
     piped := piped s;
     watched := watched s; handshakes := handshakes s; opened := opened s;
     log := log s |}.

Definition set_feeding (l : list channel) (s : state) : state :=
  {| out := out s; noRestart := noRestart s; streamsOpened := streamsOpened s;
     handles := handles s; sources := sources s; feeding := l;
     piped := piped s;
     watched := watched s; handshakes := handshakes s; opened := opened s;
     log := log s |}.

Definition set_piped (l : list nat) (s : state) : state :=
  {| out := out s; noRestart := noRestart s; streamsOpened := streamsOpened s;
     handles := handles s; sources := sources s; feeding := feeding s;
     piped := l;
     watched := watched s; handshakes := handshakes s; opened := opened s;
     log := log s |}.

Definition set_watched (l : list nat) (s : state) : state :=
  {| out := out s; noRestart := noRestart s; streamsOpened := streamsOpened s;
     handles := handles s; sources := sources s; feeding := feeding s;
     piped := piped s;
     watched := l; handshakes := handshakes s; opened := opened s;
     log := log s |}.

Definition set_handshakes (l : list nat) (s : state) : state :=
  {| out := out s; noRestart := noRestart s; streamsOpened := streamsOpened s;
     handles := handles s; sources := sources s; feeding := feeding s;
     piped := piped s;
     watched := watched s; handshakes := l; opened := opened s;
     log := log s |}.

Definition set_opened (n : nat) (s : state) : state :=
  {| out := out s; noRestart := noRestart s; streamsOpened := streamsOpened s;
     handles := handles s; sources := sources s; feeding := feeding s;
     piped := piped s;
     watched := watched s; handshakes := handshakes s; opened := n;
     log := log s |}.

Definition has_stream (o : nat) (l : list nat) : bool := existsb (Nat.eqb o) l.

Definition drop_stream (o : nat) (l : list nat) : list nat :=
  List.filter (fun x => negb (Nat.eqb o x)) l.

Definition has_channel (c : channel) (l : list channel) : bool :=
  existsb (channel_eqb c) l.

Definition drop_channel (c : channel) (l : list channel) : list channel :=
  List.filter (fun x => negb (channel_eqb c x)) l.

(* ------------------------------------------------------------------------- *)
(** ** [connect], [pipe], [streamClosed] and [start] *)
(* ------------------------------------------------------------------------- *)

(** [connect(opts)]: the new stream and the state that holds it.  In secure
    mode the stream carries the [onSecure] callback.  The port is taken to be
    one that [net] and [tls] accept, an integer from 0 to 65535; they throw
    on any other, which is not modelled. *)
Definition connect (opts : options) (s : state) : nat * state :=
  let stream := opened s in
  let s := set_opened (S stream) s in
  if secure opts
  then (stream,
        emit (TlsConnect stream (port opts) (server opts))
          (set_handshakes (handshakes s ++ [stream]) s))
  else (stream, emit (NetConnect stream (port opts) (server opts)) s).

(** [onSecure], given [stream.authorized]. *)
Definition onSecure (authorized : bool) : result unit :=
  if negb authorized then Throw (Error "secure connection not authorized")
  else Ok tt.

(** [pipe()]. *)
Definition pipe (opts : options) (s : state) : state :=
  let s := match out s with
           | Some o => emit (Unpipe o) (set_piped (drop_stream o (piped s)) s)
           | None => s
           end in
  let (stream, s) := connect opts s in
  let s := set_out (Some stream) s in
  let s := emit (PipeOut stream) (set_piped (piped s ++ [stream]) s) in
  emit (Watch stream)
    (set_noRestart (Some stream) (set_watched (watched s ++ [stream]) s)).

(** [streamClosed(streamsOpened)]. *)
Definition streamClosed (n : Z) (s : state) : process :=
  if (n <=? 0)%Z then
    let s := match noRestart s with
             | Some o =>
                 emit (Unwatch o) (set_watched (drop_stream o (watched s)) s)
             | None => s
             end in
    match out s with
    | Some o => Running (emit (Destroy o) s)
    | None => Crashed (TypeError "out.destroy") s
    end
  else Running s.

(** [opts.logs !== false], and likewise for the other two flags. *)
Definition flag_on (f : option bool) : bool :=
  match f with
  | Some false => false
  | _ => true
  end.

(** One of the three blocks of lines 104 to 120: the source is made, piped
    into [filter] and counted. *)
Definition open_source (c : channel) (s : state) : state :=
  let s := set_handles (handles s ++ [c]) (emit (OpenSource c) s) in
  let s := emit (PipeToFilter c) (set_feeding (feeding s ++ [c]) s) in
  set_streamsOpened (streamsOpened s + 1) s.

Definition watch_source (c : channel) (s : state) : state :=
  if has_channel c (handles s)
  then emit (WatchSource c) (set_sources (sources s ++ [c]) s)
  else s.

Definition no_channel_message : string :=
  "You must provide a key for at least one of logs, stats, or dockerEvents".

(** [start(opts)], up to its [return].  [allContainers] and the factories of
    the three sources are taken to return. *)
Definition start (opts : options) : process :=
  let s := emit (ConsoleLog "Started successfully, streaming logs ...") initial in
  let s := emit AllContainers s in
  let s := if flag_on (logs opts) && token_set (logstoken opts)
           then open_source Logs s else s in
  let s := if flag_on (stats opts) && token_set (statstoken opts)
           then open_source Stats s else s in
  let s := if flag_on (dockerEvents opts) && token_set (eventstoken opts)
           then open_source DockerEvents s else s in
  if negb (has_channel Stats (handles s)) && negb (has_channel Logs (handles s))
     && negb (has_channel DockerEvents (handles s))
  then Crashed (Error no_channel_message) s
  else
    let s := pipe opts s in
    let s := watch_source Logs s in
    let s := watch_source Stats s in
    let s := watch_source DockerEvents s in
    Running s.

(* ------------------------------------------------------------------------- *)
(** ** The callbacks, driven by what the outside delivers *)
(* ------------------------------------------------------------------------- *)

(** What can happen once [start] has returned.
    - [Data c obj]: source [c] emits [obj].
    - [EndOfData c]: source [c] emits ['end'].  The sources are piped into
      [filter] with no [end: false], so the pipe of [c] ends [filter], and
      [filter], finished, lets go of every source.
    - [SourceEnded c]: the end-of-stream callback of source [c] runs: the
      source has ended, has reported an error or was closed.  After an error
      the source may live on.
    - [OutEnded o]: transport [o] is over: it ended, failed or was closed.
    - [SecureConnect o authorized]: the secure handshake of transport [o]
      completes and its callback runs, with [stream.authorized] as given.
      The runtime runs the callback of an unverified peer only when it is
      told not to reject such peers; by default it destroys the stream
      instead, which is an [OutEnded]. *)
Inductive event : Type :=
| Data (c : channel) (obj : JS.props)
| EndOfData (c : channel)
| SourceEnded (c : channel)
| OutEnded (stream : nat)
| SecureConnect (stream : nat) (authorized : bool).

Fixpoint write_to (dests : list nat) (chunk : string) (s : state) : state :=
  match dests with
  | [] => s
  | d :: rest => write_to rest chunk (emit (Write d chunk) s)
  end.

Fixpoint write_all (chunks : list string) (s : state) : state :=
  match chunks with
  | [] => s
  | chunk :: rest => write_all rest (write_to (piped s) chunk s)
  end.

Section Loop.

Context {engine : RegExpEngine}.

(** One callback.  An exception that leaves a callback is caught by nobody
    and ends the process.  End-of-stream callbacks and [onSecure] run at most
    once.  An event of a source reaches the transform while the source is
    piped into [filter]; a pipe lets go of a destination that is over. *)
Definition handle (opts : options) (s : state) (ev : event) : process :=
  match ev with
  | Data c obj =>
      if has_channel c (feeding s) then
        match filter opts obj with
        | Ok chunks => Running (write_all chunks s)
        | Throw e => Crashed e s
        end
      else Running s
  | EndOfData c =>
      if has_channel c (feeding s) then Running (set_feeding [] s)
      else Running s
  | SourceEnded c =>
      if has_channel c (sources s) then
        let s := set_sources (drop_channel c (sources s)) s in
        let s := set_streamsOpened (streamsOpened s - 1) s in
        streamClosed (streamsOpened s) s
      else Running s
  | OutEnded o =>
      let s := set_piped (drop_stream o (piped s)) s in
      if has_stream o (watched s)
      then Running (pipe opts (set_watched (drop_stream o (watched s)) s))
      else Running s
  | SecureConnect o authorized =>
      if has_stream o (handshakes s) then
        let s := set_handshakes (drop_stream o (handshakes s)) s in
        match onSecure authorized with
        | Ok _ => Running s
        | Throw e => Crashed e s
        end
      else Running s
  end.

Fixpoint run (opts : options) (p : process) (evs : list event) : process :=
  match p, evs with
  | Running s, ev :: rest => run opts (handle opts s ev) rest
  | _, _ => p
  end.

End Loop.

(* ------------------------------------------------------------------------- *)
(** ** The vocabulary of the specification *)
(* ------------------------------------------------------------------------- *)

(** The body of the loop of [addAll] when [proto.hasOwnProperty] is the
    method of [Object.prototype]. *)
Definition merge (proto : JS.props) (obj : object) (key : string) : object :=
  if has_own proto key then assign obj key (JS.prop proto key) else obj.

(** The event has no field [k] to read: [obj.k] is [undefined]. *)
Definition lacks (obj : object) (k : string) : Prop := read obj k = JS.Undefined.

(** The record of an event under a token: nothing when the token is empty or
    was never set. *)
Definition forward (token : option string) (obj : object) : list string :=
  match token with
  | Some t => if t =? "" then [] else [t; " "; JS.stringify (fields obj); LF]
  | None => []
  end.



(** The channels [start] opens: the flag is not [false] and the token is
    set. *)
Definition enabled (opts : options) : list channel :=
  (if flag_on (logs opts) && token_set (logstoken opts) then [Logs] else [])
  ++ (if flag_on (stats opts) && token_set (statstoken opts) then [Stats] else [])
  ++ (if flag_on (dockerEvents opts) && token_set (eventstoken opts)
      then [DockerEvents] else []).

Definition is_connect (a : action) : bool :=
  match a with
  | TlsConnect _ _ _ | NetConnect _ _ _ => true
  | _ => false
  end.

Definition is_destroy (a : action) : bool :=
  match a with
  | Destroy _ => true
  | _ => false
  end.

Definition is_unwatch (a : action) : bool :=
  match a with
  | Unwatch _ => true
  | _ => false
  end.

Definition is_write (a : action) : bool :=
  match a with
  | Write _ _ => true
  | _ => false
  end.

Definition count (f : action -> bool) (l : list action) : nat :=
  length (List.filter f l).

Definition ended (c : channel) (evs : list event) : bool :=
  existsb (fun ev => match ev with
                     | SourceEnded c' => channel_eqb c c'
                     | _ => false
                     end) evs.

(** The enabled channels that have not ended in [evs]. *)
Definition still_open (opts : options) (evs : list event) : list channel :=
  List.filter (fun c => negb (ended c evs)) (enabled opts).



(** What the runtime delivers for a secure transport whose peer it cannot
    verify.  [tls.connect] is called with no options, so that it rejects
    such a peer: it destroys the stream with an error and never runs the
    [secureConnect] callback.  The program sees a transport that is over. *)
Definition peer_rejected (stream : nat) : event := OutEnded stream.

Definition state_of (p : process) : state :=
  match p with
  | Running s => s
  | Crashed _ s => s
  end.

(** What holds of the variables and callbacks after [start] and after every
    callback, [evs] being what was delivered so far. *)
Record invariant (opts : options) (evs : list event) (s : state) : Prop := {
  inv_out : exists o, out s = Some o /\ opened s = S o;
  inv_count : streamsOpened s = Z.of_nat (length (sources s));
  inv_sources : sources s = still_open opts evs;
  inv_open :
    sources s <> [] ->
    noRestart s = out s /\ (forall o, out s = Some o -> watched s = [o] /\ piped s = [o])
    /\ count is_destroy (log s) = 0 /\ count is_unwatch (log s) = 0;
  inv_shut :
    sources s = [] ->
    watched s = [] /\ count is_destroy (log s) = 1 /\ count is_unwatch (log s) = 1
    /\ exists pre o post, log s = (pre ++ [Unwatch o; Destroy o] ++ post)%list;
  inv_secure :
    secure opts = true ->
    forall o, out s = Some o ->
              In o (handshakes s) \/ In (SecureConnect o true) evs
}.

Section Vocabulary.

Context {engine : RegExpEngine}.

(** [text] matches the pattern [p]. *)
Definition Matches (p text : string) : Prop :=
  exists r, RegExp p = Some r /\ matches r text = true.

(** Every pattern in use is one the engine accepts. *)
Definition patterns_valid (opts : options) : Prop :=
  forall p,
    In p [matchByName opts; matchByImage opts; skipByName opts; skipByImage opts] ->
    p <> "" -> RegExp p <> None.

(** The four checks of the specification, on the text of the event's name
    and image. *)
Definition checks_hold (opts : options) (obj : object) : Prop :=
  let name := JS.to_string (read obj "name") in
  let image := JS.to_string (read obj "image") in
  (matchByName opts <> "" -> Matches (matchByName opts) name)
  /\ (matchByImage opts <> "" -> Matches (matchByImage opts) image)
  /\ (skipByName opts <> "" -> ~ Matches (skipByName opts) name)
  /\ (skipByImage opts <> "" -> ~ Matches (skipByImage opts) image).

(** The specification's rule of enrichment: every pair of every enrichment
    set becomes a field of the event. *)
Definition merges_every_pair : Prop :=
  forall proto obj k v,
    JS.get proto k = Some v ->
    exists e, addAll (Some proto) (raw obj) = Ok e /\ JS.get (fields e) k = Some v.

(** The specification's rule for an event that has none of [line], [type],
    [stats]: it is dropped, without failure. *)
Definition drops_shapeless : Prop :=
  forall opts obj,
    patterns_valid opts ->
    JS.get obj "line" = None -> JS.get obj "type" = None ->
    JS.get obj "stats" = None ->
    filter opts obj = Ok [].


End Vocabulary.

(* ------------------------------------------------------------------------- *)
(** ** Worked configurations and events *)
(* ------------------------------------------------------------------------- *)

Module Ex.

(** A piece of JSON text between double quotes, for text that needs no
    escape. *)
Definition lit (s : string) : string := JS.dquote ++ s ++ JS.dquote.

(** The defaults of the command line, with no token. *)
Definition defaults : options :=
  {| logs := Some true; stats := Some true; dockerEvents := Some true;
     logstoken := None; statstoken := None; eventstoken := None;
     matchByName := ""; matchByImage := ""; skipByName := ""; skipByImage := "";
     add := None;
     secure := false; server := "data.logentries.com"; port := 80 |}.

Definition with_tokens (l k e : option string) (opts : options) : options :=
  {| logs := logs opts; stats := stats opts; dockerEvents := dockerEvents opts;
     logstoken := l; statstoken := k; eventstoken := e;
     matchByName := matchByName opts; matchByImage := matchByImage opts;
     skipByName := skipByName opts; skipByImage := skipByImage opts;
     add := add opts;
     secure := secure opts; server := server opts; port := port opts |}.

Definition with_patterns (mn mi sn si : string) (opts : options) : options :=
  {| logs := logs opts; stats := stats opts; dockerEvents := dockerEvents opts;
     logstoken := logstoken opts; statstoken := statstoken opts;
     eventstoken := eventstoken opts;
     matchByName := mn; matchByImage := mi; skipByName := sn; skipByImage := si;
     add := add opts;
     secure := secure opts; server := server opts; port := port opts |}.

Definition with_add (a : JS.props) (opts : options) : options :=
  {| logs := logs opts; stats := stats opts; dockerEvents := dockerEvents opts;
     logstoken := logstoken opts; statstoken := statstoken opts;
     eventstoken := eventstoken opts;
     matchByName := matchByName opts; matchByImage := matchByImage opts;
     skipByName := skipByName opts; skipByImage := skipByImage opts;
     add := Some a;
     secure := secure opts; server := server opts; port := port opts |}.

Definition with_secure (b : bool) (p : Z) (opts : options) : options :=
  {| logs := logs opts; stats := stats opts; dockerEvents := dockerEvents opts;
     logstoken := logstoken opts; statstoken := statstoken opts;
     eventstoken := eventstoken opts;
     matchByName := matchByName opts; matchByImage := matchByImage opts;
     skipByName := skipByName opts; skipByImage := skipByImage opts;
     add := add opts;
     secure := b; server := server opts; port := p |}.

(** The end-to-end example of the specification. *)
Definition hello : JS.props :=
  [("line", JS.Str "hello"); ("name", JS.Str "web1"); ("image", JS.Str "nginx")].

Definition hello_opts : options :=
  with_add [("host", JS.Str "myhost")]
    (with_tokens (Some "ABC") None None defaults).

Definition hello_json : string :=
  "{" ++ lit "line" ++ ":" ++ lit "hello" ++ ","
      ++ lit "name" ++ ":" ++ lit "web1" ++ ","
      ++ lit "image" ++ ":" ++ lit "nginx" ++ ","
      ++ lit "host" ++ ":" ++ lit "myhost" ++ "}".

(** Only the logs token is configured. *)
Definition lt1_opts : options := with_tokens (Some "LT1") None None defaults.

Definition sample : JS.props :=
  [("stats", JS.Obj [("cpu", JS.Num 12)]); ("name", JS.Str "web1");
   ("image", JS.Str "nginx")].


(** An event that carries none of [line], [type], [stats]. *)
Definition shapeless : JS.props :=
  [("name", JS.Str "web1"); ("image", JS.Str "nginx")].


(** The example of the specification's truth table: names that begin with
    [web], and no image that contains [redis]. *)
Definition web_opts : options :=
  with_patterns "^web" "" "" "redis" (with_tokens (Some "ABC") None None defaults).



(** The enrichment set of [-a hasOwnProperty=x]. *)
Definition own_method : JS.props := [("hasOwnProperty", JS.Str "x")].

Definition own_method_opts : options := with_add own_method lt1_opts.

(** An enrichment set with the key [__proto__], as [JSON.parse] can make
    one. *)
Definition proto_key : JS.props := [("__proto__", JS.Str "x")].

(** The enrichment set of [-a type=prod], with a token for events. *)
Definition typed_opts : options :=
  with_add [("type", JS.Str "prod")] (with_tokens None None (Some "ET") defaults).

Definition typed_json : string :=
  "{" ++ lit "name" ++ ":" ++ lit "web1" ++ ","
      ++ lit "image" ++ ":" ++ lit "nginx" ++ ","
      ++ lit "type" ++ ":" ++ lit "prod" ++ "}".

(** A raw event that already has a [host]. *)
Definition hosted : JS.props :=
  [("host", JS.Str "old"); ("line", JS.Str "hello")].

Definition h1_opts : options := with_add [("host", JS.Str "h1")] lt1_opts.

(** Logs and stats enabled; a run in which one event is forwarded, the
    stats source ends, the transport ends and the logs source ends. *)
Definition two_opts : options :=
  with_tokens (Some "LT1") (Some "ST1") None defaults.

Definition two_started : state := Eval vm_compute in state_of (start two_opts).


Definition two_events : list event :=
  [Data Logs hello; SourceEnded Stats; OutEnded 0; SourceEnded Logs].

Definition two_finished : state :=
  Eval vm_compute in
    state_of (run (engine := Simple.engine) two_opts (Running two_started)
                two_events).

(** The logs source comes to its end and its end-of-stream callback runs;
    then the transport is over. *)
Definition logs_done : list event :=
  [EndOfData Logs; SourceEnded Logs; OutEnded 0].

Definition lonely : state :=
  Eval vm_compute in
    state_of (run (engine := Simple.engine) two_opts (Running two_started)
                logs_done).

(** The logs source is over through an error; then the transport is over
    and the stats source emits an event. *)
Definition heard : state :=
  Eval vm_compute in
    state_of (run (engine := Simple.engine) two_opts (Running two_started)
                [SourceEnded Logs; OutEnded 0; Data Stats sample]).

Definition sample_json : string :=
  "{" ++ lit "stats" ++ ":{" ++ lit "cpu" ++ ":12},"
      ++ lit "name" ++ ":" ++ lit "web1" ++ ","
      ++ lit "image" ++ ":" ++ lit "nginx" ++ "}".

(** Secure mode on port 443. *)
Definition tls_opts : options := with_secure true 443 two_opts.

Definition tls_started : state := Eval vm_compute in state_of (start tls_opts).

(** The program started with the enrichment set of [-a hasOwnProperty=x]. *)
Definition own_method_started : state :=
  Eval vm_compute in state_of (start own_method_opts).

(** The peer of the first secure transport is rejected; and so are the
    peers of the next two. *)
Definition tls_again : state :=
  Eval vm_compute in
    state_of (handle (engine := Simple.engine) tls_opts tls_started
                (peer_rejected 0)).

Definition tls_thrice : state :=
  Eval vm_compute in
    state_of (run (engine := Simple.engine) tls_opts (Running tls_started)
                [peer_rejected 0; peer_rejected 1; peer_rejected 2]).

End Ex.

(* ------------------------------------------------------------------------- *)
(** ** Tokens: [generateTokens], [setTokenValues] and the metadata reply *)
(* ------------------------------------------------------------------------- *)

(** [a || b] on tokens. *)
Definition or_token (a b : option string) : option string :=
  if token_set a then a else b.

(** The three assignments to [opts.logstoken], [opts.statstoken] and
    [opts.eventstoken]. *)
Definition set_tokens (l k e : option string) (opts : options) : options :=
  {| logs := logs opts; stats := stats opts; dockerEvents := dockerEvents opts;
     logstoken := l; statstoken := k; eventstoken := e;
     matchByName := matchByName opts; matchByImage := matchByImage opts;
     skipByName := skipByName opts; skipByImage := skipByImage opts;
     add := add opts;
     secure := secure opts; server := server opts; port := port opts |}.

(** What [generateTokens] has done when it returns: it has called [start],
    or it has sent the request for the host labels.  [console] holds the
    lines it printed itself. *)
Inductive startup : Type :=
| Started (console : list string) (p : process)
| Requested (console : list string) (url accept : string).

Definition labels_api : string :=
  "http://rancher-metadata/2015-12-19/self/host/labels".

(** [opts] after the three assignments of [generateTokens], [token] being
    [opts.token]. *)
Definition provided (token : option string) (opts : options) : options :=
  set_tokens
    (or_token (or_token (logstoken opts) token) (Some ""))
    (or_token (or_token (statstoken opts) token) (Some ""))
    (or_token (or_token (eventstoken opts) token) (Some ""))
    opts.

(** [generateTokens(opts)]. *)
Definition generateTokens (token : option string) (opts : options) : startup :=
  if token_set token || token_set (logstoken opts)
     || token_set (statstoken opts) || token_set (eventstoken opts)
  then Started ["Using provided tokens ... "] (start (provided token opts))
  else
    Requested ["Retrieving tokens from host labels ..."]
      labels_api "application/json".

(** The host labels of the metadata service: text keys with text values,
    in the order of the parsed object.  A reply whose JSON is not such an
    object is outside the model. *)
Definition labels : Type := list (string * string).

(** The four variables of [setTokenValues]; [None] is [undefined]. *)
Record picked : Type := {
  token_base : option string;
  token_logs : option string;
  token_stats : option string;
  token_events : option string
}.

Definition nothing_picked : picked :=
  {| token_base := None; token_logs := None; token_stats := None;
     token_events := None |}.

(** The body of the loop of [setTokenValues]. *)
Definition pick (labels_data : labels) (t : picked) (k : string) : picked :=
  if k =? "logentries-token" then
    {| token_base := JS.get labels_data k; token_logs := token_logs t;
       token_stats := token_stats t; token_events := token_events t |}
  else if k =? "logentries-token-logs" then
    {| token_base := token_base t; token_logs := JS.get labels_data k;
       token_stats := token_stats t; token_events := token_events t |}
  else if k =? "logentries-token-stats" then
    {| token_base := token_base t; token_logs := token_logs t;
       token_stats := JS.get labels_data k; token_events := token_events t |}
  else if k =? "logentries-token-events" then
    {| token_base := token_base t; token_logs := token_logs t;
       token_stats := token_stats t; token_events := JS.get labels_data k |}
  else t.

(** [opts] after the loop and the three assignments of [setTokenValues]. *)
Definition labelled (opts : options) (labels_data : labels) : options :=
  let t := fold_left (pick labels_data) (JS.own_keys labels_data) nothing_picked in
  set_tokens
    (or_token (or_token (token_logs t) (token_base t)) (Some ""))
    (or_token (or_token (token_stats t) (token_base t)) (Some ""))
    (or_token (or_token (token_events t) (token_base t)) (Some ""))
    opts.

(** [setTokenValues(labels_data)]. *)
Definition setTokenValues (opts : options) (labels_data : labels) : process :=
  start (labelled opts labels_data).

(** What the callback of [request] is given: an error, or a response with
    its status code and its body, the body as [JSON.parse] reads it ([None]
    when [JSON.parse] throws). *)
Inductive reply : Type :=
| NoResponse
| Response (statusCode : Z) (body : option labels).

Definition cannot_parse : string :=
  "Unable to parse response from metadata service ...".

Definition cannot_connect : string := "Unable to connect to Rancher ...".

(** The callback that [requestMetadata] hands to [request], with
    [setTokenValues] as [request_cb].  Whatever is thrown inside the [try],
    by [JSON.parse] or by [start], is replaced by the parse error. *)
Definition onMetadata (opts : options) (r : reply) : process :=
  match r with
  | NoResponse => Crashed (Error cannot_connect) initial
  | Response statusCode body =>
      if (statusCode =? 200)%Z then
        match body with
        | None => Crashed (Error cannot_parse) initial
        | Some labels_data =>
            match setTokenValues opts labels_data with
            | Running s => Running s
            | Crashed _ s => Crashed (Error cannot_parse) s
            end
        end
      else Crashed (Error cannot_connect) initial
  end.

(** The flag, the token and the label of a channel. *)
Definition flag_of (opts : options) (c : channel) : option bool :=
  match c with
  | Logs => logs opts
  | Stats => stats opts
  | DockerEvents => dockerEvents opts
  end.

Definition token_of (opts : options) (c : channel) : option string :=
  match c with
  | Logs => logstoken opts
  | Stats => statstoken opts
  | DockerEvents => eventstoken opts
  end.

Definition label_of (c : channel) : string :=
  match c with
  | Logs => "logentries-token-logs"
  | Stats => "logentries-token-stats"
  | DockerEvents => "logentries-token-events"
  end.

(* ------------------------------------------------------------------------- *)
(** ** The command line: [cli] *)
(* ------------------------------------------------------------------------- *)

(** The white space and the line terminators that [parseInt] skips.  Text
    being kept as the bytes of its UTF-8 encoding, those of one byte are
    tab, line feed, vertical tab, form feed, carriage return and space. *)
Definition is_space (c : ascii) : bool :=
  let n := N_of_ascii c in
  (n =? 9)%N || (n =? 10)%N || (n =? 11)%N || (n =? 12)%N || (n =? 13)%N
  || (n =? 32)%N.

(** The one of two bytes: U+00A0. *)
Definition is_space2 (a b : ascii) : bool :=
  (N_of_ascii a =? 194)%N && (N_of_ascii b =? 160)%N.

(** Those of three bytes: U+1680, U+2000 to U+200A, U+2028, U+2029, U+202F,
    U+205F, U+3000 and U+FEFF. *)
Definition is_space3 (a b c : ascii) : bool :=
  let a := N_of_ascii a in
  let b := N_of_ascii b in
  let c := N_of_ascii c in
  ((a =? 225) && (b =? 154) && (c =? 128))%N
  || ((a =? 226) && (b =? 128)
      && (((128 <=? c) && (c <=? 138)) || (c =? 168) || (c =? 169)
          || (c =? 175)))%N
  || ((a =? 226) && (b =? 129) && (c =? 159))%N
  || ((a =? 227) && (b =? 128) && (c =? 128))%N
  || ((a =? 239) && (b =? 187) && (c =? 191))%N.

Fixpoint trim_start (s : string) : string :=
  match s with
  | EmptyString => ""
  | String a rest =>
      if is_space a then trim_start rest
      else
        match rest with
        | String b rest2 =>
            if is_space2 a b then trim_start rest2
            else
              match rest2 with
              | String c rest3 =>
                  if is_space3 a b c then trim_start rest3 else s
              | EmptyString => s
              end
        | EmptyString => s
        end
  end.

(** The value of a character as a digit of the radix, if it is one. *)
Definition digit_value (radix : N) (c : ascii) : option N :=
  let n := N_of_ascii c in
  let d := if (48 <=? n)%N && (n <=? 57)%N then Some (n - 48)%N
           else if (97 <=? n)%N && (n <=? 122)%N then Some (n - 87)%N
           else if (65 <=? n)%N && (n <=? 90)%N then Some (n - 55)%N
           else None in
  match d with
  | Some d => if (d <? radix)%N then Some d else None
  | None => None
  end.

(** The number written by the digits at the start of [s], after [acc]. *)
Fixpoint digits (radix : N) (s : string) (acc : N) : N :=
  match s with
  | EmptyString => acc
  | String c rest =>
      match digit_value radix c with
      | Some d => digits radix rest (acc * radix + d)
      | None => acc
      end
  end.

Definition leading_number (radix : N) (s : string) : option N :=
  match s with
  | EmptyString => None
  | String c _ =>
      match digit_value radix c with
      | Some _ => Some (digits radix s 0)
      | None => None
      end
  end.

(** A sign at the start of the text is taken off; [true] is the minus
    sign. *)
Definition strip_sign (s : string) : bool * string :=
  match s with
  | String c rest =>
      if Ascii.eqb c "-" then (true, rest)
      else if Ascii.eqb c "+" then (false, rest)
      else (false, s)
  | EmptyString => (false, s)
  end.

(** [0x] or [0X] at the start of the text is taken off and makes the radix
    16; the radix is 10 otherwise. *)
Definition strip_prefix (s : string) : N * string :=
  match s with
  | String c (String x rest) =>
      if Ascii.eqb c "0" && (Ascii.eqb x "x" || Ascii.eqb x "X")
      then (16%N, rest) else (10%N, s)
  | _ => (10%N, s)
  end.

(** The numbers [parseInt] can give: not-a-number, an integer, or an
    infinity.  Minus zero is not told from zero. *)
Inductive number : Type :=
| NaN
| Finite (z : Z)
| Infinite (negative : bool).

(** The double nearest to a natural number, ties going to the even
    significand of 53 bits; [None] when it is beyond the largest double. *)
Definition to_double (n : N) : option N :=
  if (n <=? 2 ^ 53)%N then Some n
  else
    let k := (N.log2 n - 52)%N in
    let q := N.shiftr n k in
    let r := (n mod 2 ^ k)%N in
    let half := (2 ^ (k - 1))%N in
    let q := if (half <? r)%N || ((r =? half)%N && N.odd q) then (q + 1)%N
             else q in
    let m := N.shiftl q k in
    if (m <? 2 ^ 1024)%N then Some m else None.

(** [parseInt(s)] with no radix. *)
Definition parseInt (s : string) : number :=
  let (negative, s) := strip_sign (trim_start s) in
  let (radix, s) := strip_prefix s in
  match leading_number radix s with
  | None => NaN
  | Some n =>
      match to_double n with
      | Some m => Finite (if negative then (- Z.of_N m)%Z else Z.of_N m)
      | None => Infinite negative
      end
  end.

(** [s.split(sep)] for a one-character separator. *)
Fixpoint split (sep : ascii) (s : string) : list string :=
  match s with
  | EmptyString => [""]
  | String c rest =>
      if Ascii.eqb c sep then "" :: split sep rest
      else
        match split sep rest with
        | first :: others => String c first :: others
        | [] => [String c ""]
        end
  end.

(** The callback of the [reduce] over [argv.add].  Assigning text or
    [undefined] to [acc['__proto__']] leaves the object as it is. *)
Definition add_entry (acc : JS.props) (arg : string) : JS.props :=
  let arg := split "=" arg in
  let key := nth 0 arg "" in
  let value := match nth_error arg 1 with
               | Some v => JS.Str v
               | None => JS.Undefined
               end in
  if key =? "__proto__" then acc else JS.set acc key value.

(** [argv.add] as [minimist] leaves it: one text or a list of texts. *)
Inductive added : Type :=
| AddText (s : string)
| AddList (l : list string).

(** The fields of [argv] that [cli] reads itself; [settings] holds the
    options it passes on, in which it replaces [port] and [add]. *)
Record arguments : Type := {
  help : bool;
  token : option string;
  port_text : option string;
  adds : added;
  settings : options
}.


Definition set_add (a : JS.props) (opts : options) : options :=
  {| logs := logs opts; stats := stats opts; dockerEvents := dockerEvents opts;
     logstoken := logstoken opts; statstoken := statstoken opts;
     eventstoken := eventstoken opts;
     matchByName := matchByName opts; matchByImage := matchByImage opts;
     skipByName := skipByName opts; skipByImage := skipByImage opts;
     add := Some a;
     secure := secure opts; server := server opts; port := port opts |}.

Definition usage : string :=
  "Usage: docker-logentries [-l LOGSTOKEN] [-k STATSTOKEN] [-e EVENTSTOKEN]" ++ LF ++
  "                         [-t TOKEN] [--secure] [--json]" ++ LF ++
  "                         [--no-newline] [--no-stats] [--no-logs] [--no-dockerEvents]" ++ LF ++
  "                         [-i STATSINTERVAL] [-a KEY=VALUE]" ++ LF ++
  "                         [--matchByImage REGEXP] [--matchByName REGEXP]" ++ LF ++
  "                         [--skipByImage REGEXP] [--skipByName REGEXP]" ++ LF ++
  "                         [--server HOSTNAME] [--port PORT]" ++ LF ++
  "                         [--help]" ++ LF ++
  "                         NOTE: All REGEXP must exclude the first and last '/' forward slashes.".

(** How [cli] ends: [process.exit], an exception, or the call of
    [generateTokens] on [argv], in which [port] is the number it has
    settled on and [add] the object it has built; [opts] holds [argv] but
    for its port, and [token] is [argv.token]. *)
Inductive cli_outcome : Type :=
| Exited (console : list string) (code : Z)
| Threw (e : exn)
| Handed (port : number) (opts : options) (token : option string).

(** The port [cli] settles on. *)
Definition cli_port (a : arguments) : number :=
  match port_text a with
  | None => Finite (if secure (settings a) then 443 else 80)%Z
  | Some text => parseInt text
  end.

(** The list [cli] reduces: one text is wrapped unless it is empty, and the
    empty text has no [reduce]. *)
Definition cli_adds (a : arguments) : result (list string) :=
  match adds a with
  | AddText s => if s =? "" then Throw (TypeError "argv.add.reduce") else Ok [s]
  | AddList l => Ok l
  end.

(** [cli()], given what [minimist] returned. *)
Definition cli (a : arguments) : cli_outcome :=
  if help a then Exited [usage] 1
  else
    match cli_port a with
    | NaN => Exited ["port must be a number"] 1
    | p =>
        match cli_adds a with
        | Throw e => Threw e
        | Ok l => Handed p (set_add (fold_left add_entry l []) (settings a))
                    (token a)
        end
    end.


(** Below this bound, and at it, every integer is a double. *)
Definition safe_integer (z : Z) : Prop := (Z.abs z <= 2 ^ 53)%Z.

(* ------------------------------------------------------------------------- *)
(** ** Vocabulary for text *)
(* ------------------------------------------------------------------------- *)

(** The text goes on with something [parseInt] does not read as a decimal
    digit, or ends. *)
Definition stops (rest : string) : Prop :=
  match rest with
  | EmptyString => True
  | String c _ => digit_value 10 c = None
  end.

(** The text holds no equals sign. *)
Definition plain (s : string) : Prop := ~ In "="%char (list_ascii_of_string s).

(** The text holds no character below 32: no line feed, no carriage return,
    no other control character. *)
Fixpoint no_control (s : string) : bool :=
  match s with
  | EmptyString => true
  | String c rest => (32 <=? N_of_ascii c)%N && no_control rest
  end.

(* ------------------------------------------------------------------------- *)
(** ** Worked command lines *)
(* ------------------------------------------------------------------------- *)

Module Cmd.

(** [-t T -a host=web -a env=prod=eu -a bare], nothing else. *)
Definition run : arguments :=
  {| help := false; token := Some "T"; port_text := None;
     adds := AddList ["host=web"; "env=prod=eu"; "bare"];
     settings := Ex.defaults |}.

(** The same with [--port http]. *)
Definition bad_port : arguments :=
  {| help := false; token := Some "T"; port_text := Some "http";
     adds := AddList ["host=web"; "env=prod=eu"; "bare"];
     settings := Ex.defaults |}.

(** Only the logs token, and the common token as well. *)
Definition logs_and_common : options :=
  Ex.with_tokens (Some "L") None None Ex.defaults.

(** A name pattern with an unclosed group. *)
Definition unclosed : options :=
  Ex.with_patterns "(" "" "" "" Ex.lt1_opts.

(** An event whose line holds a line feed and a tab. *)
Definition two_lines : JS.props :=
  [("line", JS.Str ("first" ++ LF ++ String (ascii_of_N 9) "second"));
   ("name", JS.Str "web1")].

(** Host labels with the common token, a token for stats and a label of
    no concern. *)
Definition host_labels : labels :=
  [("logentries-token", "B"); ("region", "eu");
   ("logentries-token-stats", "S")].

End Cmd.

(* ========================================================================= *)
(** * Properties *)
(* ========================================================================= *)

(** ** Objects *)

Lemma get_set_same {A : Type} (ps : list (string * A)) k v :
  JS.get (JS.set ps k v) k = Some v.
Proof.
  induction ps as [|[k' v'] rest IH]; simpl.
  - now rewrite String.eqb_refl.
  - destruct (k' =? k) eqn:E; simpl; rewrite E; auto.
Qed.

Lemma get_set_other {A : Type} (ps : list (string * A)) k k' v :
  k <> k' -> JS.get (JS.set ps k v) k' = JS.get ps k'.
Proof.
  intros Hne. induction ps as [|[k0 v0] rest IH]; simpl.
  - destruct (String.eqb_spec k k'); congruence.
  - destruct (String.eqb_spec k0 k) as [->|Hk]; simpl.
    + destruct (String.eqb_spec k k'); congruence.
    + now rewrite IH.
Qed.

Lemma prop_set_same ps k v : JS.prop (JS.set ps k v) k = v.
Proof. unfold JS.prop. now rewrite get_set_same. Qed.

Lemma prop_set_other ps k k' v :
  k <> k' -> JS.prop (JS.set ps k v) k' = JS.prop ps k'.
Proof. intros H. unfold JS.prop. now rewrite get_set_other. Qed.

Lemma get_absent_prop ps k : JS.get ps k = None -> JS.prop ps k = JS.Undefined.
Proof. unfold JS.prop. now intros ->. Qed.

Lemma in_insert_by_index {A : Type} n (e : string * A) l x :
  In x (JS.insert_by_index n e l) <-> x = (n, e) \/ In x l.
Proof.
  induction l as [|[m e'] rest IH]; simpl.
  - intuition.
  - destruct (n <? m)%N; simpl; rewrite ?IH; intuition.
Qed.

(** Every property is visited by the enumeration. *)
Lemma own_keys_complete {A : Type} (ps : list (string * A)) k v :
  JS.get ps k = Some v -> In k (JS.own_keys ps).
Proof.
  unfold JS.own_keys, JS.own_props. rewrite map_app, in_app_iff.
  induction ps as [|[k' v'] rest IH]; simpl; [discriminate|].
  destruct (String.eqb_spec k' k) as [->|Hne]; intros H.
  - destruct (JS.array_index k) as [n|]; simpl; [left | right; now left].
    apply in_map_iff. exists (k, v'). split; [reflexivity|].
    apply in_map_iff. exists (n, (k, v')). split; [reflexivity|].
    apply in_insert_by_index. now left.
  - destruct (IH H) as [Hi|Hn].
    + left. destruct (JS.array_index k'); [|exact Hi].
      apply in_map_iff in Hi. destruct Hi as [e [He Hi]].
      apply in_map_iff in Hi. destruct Hi as [[m e'] [He' Hi]].
      apply in_map_iff. exists e. split; [exact He|].
      apply in_map_iff. exists (m, e'). split; [exact He'|].
      apply in_insert_by_index. now right.
    + right. destruct (JS.array_index k'); simpl; auto.
Qed.

(** ** Reads and assignments *)

Lemma read_own obj k v : JS.get (fields obj) k = Some v -> read obj k = v.
Proof. unfold read. now intros ->. Qed.

Lemma read_plain obj k : parent obj = None -> read obj k = JS.prop (fields obj) k.
Proof.
  unfold read, JS.prop. intros ->. now destruct (JS.get (fields obj) k).
Qed.

Lemma read_raw ps k : read (raw ps) k = JS.prop ps k.
Proof. now apply read_plain. Qed.

Lemma assign_other obj key k v :
  key <> k -> JS.get (fields (assign obj key v)) k = JS.get (fields obj) k.
Proof.
  intros Hne. unfold assign.
  destruct ((key =? "__proto__") && reaches_setter obj).
  - now destruct v.
  - simpl. now apply get_set_other.
Qed.

Lemma assign_same obj k v :
  k <> "__proto__" -> JS.get (fields (assign obj k v)) k = Some v.
Proof.
  intros Hne. unfold assign.
  rewrite (proj2 (String.eqb_neq _ _) Hne). simpl. apply get_set_same.
Qed.

Lemma assign_parent obj key v :
  key <> "__proto__" -> parent (assign obj key v) = parent obj.
Proof.
  intros Hne. unfold assign. now rewrite (proj2 (String.eqb_neq _ _) Hne).
Qed.

(** ** [addAll] *)

Lemma merge_keeps proto keys : forall obj k,
  ~ In k keys ->
  JS.get (fields (fold_left (merge proto) keys obj)) k = JS.get (fields obj) k.
Proof.
  induction keys as [|key rest IH]; intros obj k Hk; simpl; [reflexivity|].
  rewrite IH by (intros H; apply Hk; now right).
  unfold merge. destruct (has_own proto key); [|reflexivity].
  apply assign_other. intros ->. apply Hk. now left.
Qed.

Lemma merge_writes proto keys : forall obj k v,
  k <> "__proto__" -> JS.get proto k = Some v -> In k keys ->
  JS.get (fields (fold_left (merge proto) keys obj)) k = Some v.
Proof.
  induction keys as [|key rest IH]; intros obj k v Hp Hv Hk; simpl;
    [destruct Hk|].
  destruct (in_dec string_dec k rest) as [Hin|Hout].
  - now apply IH.
  - rewrite merge_keeps by exact Hout.
    destruct Hk as [->|Hk]; [|contradiction].
    unfold merge, has_own, JS.prop. rewrite Hv. now apply assign_same.
Qed.

Lemma merge_skips proto keys : forall obj k,
  JS.get proto k = None ->
  JS.get (fields (fold_left (merge proto) keys obj)) k = JS.get (fields obj) k.
Proof.
  induction keys as [|key rest IH]; intros obj k Hk; simpl; [reflexivity|].
  rewrite IH by exact Hk.
  unfold merge, has_own.
  destruct (JS.get proto key) eqn:E; [|reflexivity].
  apply assign_other. intros ->. congruence.
Qed.

(** Without the key [__proto__] the merge leaves the prototype alone. *)
Lemma merge_parent proto keys : forall obj,
  JS.get proto "__proto__" = None ->
  parent (fold_left (merge proto) keys obj) = parent obj.
Proof.
  induction keys as [|key rest IH]; intros obj Hp; simpl; [reflexivity|].
  rewrite IH by exact Hp.
  unfold merge, has_own.
  destruct (JS.get proto key) eqn:E; [|reflexivity].
  apply assign_parent. intros ->. congruence.
Qed.

Lemma thrown_stays proto keys e :
  fold_left (merge_step proto) keys (Throw e) = Throw e.
Proof. induction keys as [|key rest IH]; simpl; auto. Qed.

(** An enrichment set with a property [hasOwnProperty] makes the merge throw
    at the first key, before anything is assigned. *)
Lemma addAll_throws (proto : JS.props) obj :
  JS.get proto "hasOwnProperty" <> None ->
  addAll (Some proto) obj = Throw (TypeError not_a_function).
Proof.
  intros H. destruct (JS.get proto "hasOwnProperty") as [v|] eqn:E;
    [clear H | now elim H].
  pose proof (own_keys_complete proto _ v E) as Hin.
  unfold addAll. destruct (JS.own_keys proto) as [|key rest]; [destruct Hin|].
  simpl. unfold has_own. rewrite E. apply thrown_stays.
Qed.

(** Any other enrichment set is merged key by key. *)
Lemma addAll_merge (proto : JS.props) obj :
  JS.get proto "hasOwnProperty" = None ->
  addAll (Some proto) obj = Ok (fold_left (merge proto) (JS.own_keys proto) obj).
Proof.
  intros H. unfold addAll. generalize (JS.own_keys proto) as keys.
  intros keys. revert obj.
  induction keys as [|key rest IH]; intros obj; simpl; [reflexivity|].
  unfold has_own at 1. rewrite H. unfold merge.
  destruct (has_own proto key); apply IH.
Qed.

Lemma addAll_writes (proto : JS.props) obj e k v :
  addAll (Some proto) obj = Ok e ->
  k <> "__proto__" -> JS.get proto k = Some v -> JS.get (fields e) k = Some v.
Proof.
  intros He Hk Hv.
  destruct (JS.get proto "hasOwnProperty") eqn:E.
  - rewrite addAll_throws in He by congruence. discriminate.
  - rewrite (addAll_merge _ _ E) in He. injection He as <-.
    apply merge_writes; auto. now apply own_keys_complete with (v := v).
Qed.

Lemma addAll_skips (proto : JS.props) obj e k :
  addAll (Some proto) obj = Ok e ->
  JS.get proto k = None -> JS.get (fields e) k = JS.get (fields obj) k.
Proof.
  intros He Hk.
  destruct (JS.get proto "hasOwnProperty") eqn:E.
  - rewrite addAll_throws in He by congruence. discriminate.
  - rewrite (addAll_merge _ _ E) in He. injection He as <-.
    now apply merge_skips.
Qed.

Lemma addAll_parent (proto : JS.props) obj e :
  addAll (Some proto) obj = Ok e ->
  JS.get proto "__proto__" = None -> parent e = parent obj.
Proof.
  intros He Hk.
  destruct (JS.get proto "hasOwnProperty") eqn:E.
  - rewrite addAll_throws in He by congruence. discriminate.
  - rewrite (addAll_merge _ _ E) in He. injection He as <-.
    now apply merge_parent.
Qed.

(** ** The pattern checks *)

Section FilterProperties.

Context {engine : RegExpEngine}.

Lemma must_match_spec p text acc :
  (p <> "" -> RegExp p <> None) ->
  exists b, must_match p text acc = Ok b
            /\ (b = true <-> acc = true /\ (p <> "" -> Matches p text)).
Proof.
  intros Hv. unfold must_match, new_RegExp, Matches.
  destruct (String.eqb_spec p "") as [->|Hne].
  - exists acc. split; [reflexivity|]. intuition.
  - destruct (RegExp p) as [r|] eqn:E; [|now destruct (Hv Hne)].
    simpl. destruct (matches r text) eqn:M; simpl.
    + exists acc. split; [reflexivity|]. split.
      * intros ->. split; [reflexivity|]. intros _. now exists r.
      * tauto.
    + exists false. split; [reflexivity|]. split; [discriminate|].
      intros [_ H]. destruct (H Hne) as [r' [Hr Hm]]. congruence.
Qed.

Lemma must_not_match_spec p text acc :
  (p <> "" -> RegExp p <> None) ->
  exists b, must_not_match p text acc = Ok b
            /\ (b = true <-> acc = true /\ (p <> "" -> ~ Matches p text)).
Proof.
  intros Hv. unfold must_not_match, new_RegExp, Matches.
  destruct (String.eqb_spec p "") as [->|Hne].
  - exists acc. split; [reflexivity|]. intuition.
  - destruct (RegExp p) as [r|] eqn:E; [|now destruct (Hv Hne)].
    simpl. destruct (matches r text) eqn:M; simpl.
    + exists false. split; [reflexivity|]. split; [discriminate|].
      intros [_ H]. exfalso. apply (H Hne). now exists r.
    + exists acc. split; [reflexivity|]. split.
      * intros ->. split; [reflexivity|]. intros _ [r' [Hr Hm]]. congruence.
      * tauto.
Qed.

Lemma passes_regex_spec opts e :
  patterns_valid opts ->
  exists b, passes_regex opts e = Ok b /\ (b = true <-> checks_hold opts e).
Proof.
  intros Hv. unfold passes_regex, checks_hold.
  set (name := JS.to_string (read e "name")).
  set (image := JS.to_string (read e "image")).
  destruct (must_match_spec (matchByName opts) name true) as [b1 [E1 H1]].
  { apply Hv. simpl. auto. }
  destruct (must_match_spec (matchByImage opts) image b1) as [b2 [E2 H2]].
  { apply Hv. simpl. auto. }
  destruct (must_not_match_spec (skipByName opts) name b2) as [b3 [E3 H3]].
  { apply Hv. simpl. auto. }
  destruct (must_not_match_spec (skipByImage opts) image b3) as [b4 [E4 H4]].
  { apply Hv. simpl. auto 6. }
  exists b4. rewrite E1. simpl. rewrite E2. simpl. rewrite E3. simpl.
  split; [exact E4|]. tauto.
Qed.

(** The transform is the merge followed by the rest. *)
Lemma filter_route opts obj e :
  addAll (add opts) (raw obj) = Ok e -> filter opts obj = route opts e.
Proof. intros H. unfold filter. now rewrite H. Qed.

(** A merge that throws makes the transform throw. *)
Lemma filter_merge_throws opts obj x :
  addAll (add opts) (raw obj) = Throw x -> filter opts obj = Throw x.
Proof. intros H. unfold filter. now rewrite H. Qed.

(** What the transform pushes once the value of [passes_regex] is known. *)
Lemma route_after_checks opts e b :
  passes_regex opts e = Ok b ->
  route opts e = Ok (if b then forward (select_token opts e) e else []).
Proof.
  intros H. unfold route. rewrite H. simpl. unfold forward.
  destruct (select_token opts e) as [t|].
  - destruct (t =? ""), b; reflexivity.
  - now destruct b.
Qed.

(** The transform in terms of the four checks. *)
Lemma route_by_checks opts e :
  patterns_valid opts ->
  exists b,
    passes_regex opts e = Ok b
    /\ (b = true <-> checks_hold opts e)
    /\ route opts e = Ok (if b then forward (select_token opts e) e else [])
    /\ (~ checks_hold opts e -> route opts e = Ok []).
Proof.
  intros Hv.
  destruct (passes_regex_spec opts e Hv) as [b [Hb Hiff]].
  exists b. split; [exact Hb|]. split; [exact Hiff|].
  pose proof (route_after_checks opts e b Hb) as Hf.
  split; [exact Hf|].
  intros Hn. rewrite Hf. destruct b; [|reflexivity].
  exfalso. apply Hn. now apply Hiff.
Qed.

(** An event that reads none of [line], [type], [stats] is pushed under no
    token. *)
Lemma shapeless_route opts e :
  patterns_valid opts ->
  lacks e "line" -> lacks e "type" -> lacks e "stats" ->
  route opts e = Ok [].
Proof.
  intros Hv Hl Ht Hs.
  destruct (passes_regex_spec opts e Hv) as [b [Hb _]].
  rewrite (route_after_checks opts e b Hb). unfold select_token.
  unfold lacks in Hl, Ht, Hs. rewrite Hl, Ht, Hs. simpl. now destruct b.
Qed.

(** C1. Filter truth table.  When every pattern in use is a regular
    expression, the four checks on an enriched event come out true exactly
    when each inclusive pattern in use matches its field (name for
    matchByName, image for matchByImage) and no exclusive pattern in use
    matches its field (name for skipByName, image for skipByImage); a check
    that fails makes the filter push nothing, whatever the other checks and
    the token are.  The enriched event is the event that the merge of the
    enrichment set leaves. *)
Theorem filter_truth_table (opts : options) (obj : JS.props) (e : object) :
  addAll (add opts) (raw obj) = Ok e ->
  patterns_valid opts ->
  exists passes,
    passes_regex opts e = Ok passes
    /\ (passes = true <-> checks_hold opts e)
    /\ filter opts obj
       = Ok (if passes then forward (select_token opts e) e else [])
    /\ (~ checks_hold opts e -> filter opts obj = Ok []).
Proof.
  intros He Hv. rewrite (filter_route opts obj e He).
  exact (route_by_checks opts e Hv).
Qed.


(** C5, the defect.  [-a hasOwnProperty=x] on the command line gives an
    enrichment set whose property hasOwnProperty hides the method that
    [addAll] calls on the set: the merge throws at the first key, for every
    event; no pair is merged, the transform throws and the callback that
    delivers the event ends the process.  And a pair under the key
    __proto__ is not merged either: the event is left as it was. *)
Theorem own_method_breaks_enrichment :
  fold_left add_entry ["hasOwnProperty=x"] [] = Ex.own_method
  /\ JS.get Ex.own_method "hasOwnProperty" = Some (JS.Str "x")
  /\ addAll (Some Ex.own_method) (raw Ex.hello)
     = Throw (TypeError not_a_function)
  /\ filter Ex.own_method_opts Ex.hello = Throw (TypeError not_a_function)
  /\ start Ex.own_method_opts = Running Ex.own_method_started
  /\ handle Ex.own_method_opts Ex.own_method_started (Data Logs Ex.hello)
     = Crashed (TypeError not_a_function) Ex.own_method_started
  /\ JS.get Ex.proto_key "__proto__" = Some (JS.Str "x")
  /\ addAll (Some Ex.proto_key) (raw Ex.hello) = Ok (raw Ex.hello)
  /\ JS.get Ex.hello "__proto__" = None
  /\ ~ merges_every_pair.
Proof.
  repeat (split; [vm_compute; reflexivity|]).
  intros H.
  destruct (H Ex.own_method Ex.hello "hasOwnProperty" (JS.Str "x") eq_refl)
    as (e & He & _).
  vm_compute in He. discriminate.
Qed.

(** X18. An enrichment set that has a property hasOwnProperty makes the
    transform throw a TypeError for every event, before any field is read
    and any pattern is compiled; the callback that delivers an event of a
    source that is piped into the filter ends the process with it, nothing
    written. *)
Theorem own_method_is_fatal (opts : options) (proto : JS.props) :
  add opts = Some proto -> JS.get proto "hasOwnProperty" <> None ->
  forall obj,
    addAll (add opts) (raw obj) = Throw (TypeError not_a_function)
    /\ filter opts obj = Throw (TypeError not_a_function)
    /\ forall s c, In c (feeding s) ->
         handle opts s (Data c obj) = Crashed (TypeError not_a_function) s.
Proof.
  intros Ha Hh obj.
  assert (He : addAll (add opts) (raw obj) = Throw (TypeError not_a_function))
    by (rewrite Ha; now apply addAll_throws).
  pose proof (filter_merge_throws opts obj _ He) as Hf.
  split; [exact He|]. split; [exact Hf|].
  intros s c Hc. simpl. rewrite Hf.
  destruct (has_channel c (feeding s)) eqn:E; [reflexivity|].
  exfalso. assert (X : has_channel c (feeding s) = true); [|congruence].
  unfold has_channel. apply existsb_exists. exists c. split; [exact Hc|].
  now destruct c.
Qed.

(** X17. An enrichment set that has no property hasOwnProperty is merged
    without failure, and after the merge every enrichment key other than
    __proto__ is a field of the event that holds the enrichment's value,
    whatever the raw event held under that key; keys the enrichment does
    not have keep what the raw event had; and the filter chooses the token,
    runs the checks and serializes on the merged event.  With no enrichment
    set the event is left as it is. *)
Theorem enrichment_precedence (opts : options) (obj : JS.props) :
  (forall proto,
      add opts = Some proto -> JS.get proto "hasOwnProperty" = None ->
      exists e,
        addAll (add opts) (raw obj) = Ok e
        /\ (forall k v,
               k <> "__proto__" -> JS.get proto k = Some v ->
               JS.get (fields e) k = Some v /\ read e k = v)
        /\ (forall k, JS.get proto k = None -> JS.get (fields e) k = JS.get obj k)
        /\ filter opts obj = route opts e)
  /\ (add opts = None ->
      addAll (add opts) (raw obj) = Ok (raw obj)
      /\ filter opts obj = route opts (raw obj)).
Proof.
  split.
  - intros proto Ha Hh. rewrite Ha.
    pose proof (addAll_merge proto (raw obj) Hh) as He.
    eexists. split; [exact He|]. split; [|split].
    + intros k v Hk Hv.
      pose proof (addAll_writes proto (raw obj) _ k v He Hk Hv) as Hg.
      split; [exact Hg | now apply read_own].
    + intros k Hk. exact (addAll_skips proto (raw obj) _ k He Hk).
    + apply filter_route. now rewrite Ha.
  - intros Ha. rewrite Ha. split; [reflexivity|].
    apply filter_route. now rewrite Ha.
Qed.

(** C6. Wire format.  Whatever the filter pushes for an event is nothing, or
    the four chunks token, one space, the serialized enriched event, line
    feed, whose concatenation is the record; the token is then the non-empty
    token chosen for the event.  The end-to-end example of the specification
    yields the record it gives. *)
Theorem wire_format :
  (forall opts obj chunks,
      filter opts obj = Ok chunks -> chunks <> [] ->
      exists e token,
        addAll (add opts) (raw obj) = Ok e
        /\ select_token opts e = Some token /\ token <> ""
        /\ chunks = [token; " "; JS.stringify (fields e); LF]
        /\ String.concat "" chunks
           = token ++ " " ++ JS.stringify (fields e) ++ LF)
  /\ filter Ex.hello_opts Ex.hello = Ok ["ABC"; " "; Ex.hello_json; LF]
  /\ String.concat "" ["ABC"; " "; Ex.hello_json; LF]
     = "ABC " ++ Ex.hello_json ++ LF.
Proof.
  split; [|split; reflexivity].
  intros opts obj chunks Hf Hne. unfold filter in Hf.
  destruct (addAll (add opts) (raw obj)) as [e|] eqn:Ea; simpl in Hf;
    [|discriminate].
  unfold route in Hf.
  destruct (passes_regex opts e) as [b|]; simpl in Hf; [|discriminate].
  destruct (select_token opts e) as [t|] eqn:Et; [|congruence].
  destruct (String.eqb_spec t "") as [|Ht]; simpl in Hf; [congruence|].
  destruct b; simpl in Hf; [|congruence].
  injection Hf as <-.
  exists e, t. split; [reflexivity|]. split; [exact Et|]. split; [exact Ht|].
  split; reflexivity.
Qed.

(** C9, as amended.  When the merge of the enrichment set does not throw
    and every pattern in use is a regular expression, an event that, once
    merged, reads none of line, type, stats makes the filter push nothing and
    return normally; the callback that delivers it leaves the program
    running and its effects as they were, so nothing is written to the
    transport. *)
Theorem undefined_event_dropped (opts : options) (obj : JS.props) (e : object) :
  addAll (add opts) (raw obj) = Ok e ->
  patterns_valid opts ->
  lacks e "line" -> lacks e "type" -> lacks e "stats" ->
  filter opts obj = Ok []
  /\ forall s c, handle opts s (Data c obj) = Running s.
Proof.
  intros He Hv Hl Ht Hs.
  assert (Hf : filter opts obj = Ok []).
  { rewrite (filter_route opts obj e He). now apply shapeless_route. }
  split; [exact Hf|].
  intros s c. simpl. rewrite Hf. now destruct (has_channel c (feeding s)).
Qed.

(** The discriminant is read after the merge.  Under an enrichment set
    that has neither [hasOwnProperty] nor [__proto__], the merged event
    lacks a field exactly when the raw event and the enrichment set both
    lack it. *)
Lemma merged_field_absent (opts : options) (obj : JS.props) (e : object)
  (k : string) :
  addAll (add opts) (raw obj) = Ok e ->
  (forall proto, add opts = Some proto -> JS.get proto "__proto__" = None) ->
  (JS.get (fields e) k = None
   <-> JS.get obj k = None
       /\ (forall proto, add opts = Some proto -> JS.get proto k = None))
  /\ parent e = None.
Proof.
  intros He Hp. destruct (add opts) as [proto|]; simpl in He.
  - split; [|exact (addAll_parent proto _ _ He (Hp proto eq_refl))].
    destruct (JS.get proto k) as [v|] eqn:E.
    + assert (Hk : k <> "__proto__").
      { intros ->. rewrite (Hp proto eq_refl) in E. discriminate. }
      rewrite (addAll_writes proto _ _ k v He Hk E).
      split; [discriminate|]. intros [_ H'].
      specialize (H' proto eq_refl). congruence.
    + rewrite (addAll_skips proto _ _ k He E). simpl.
      split; [intros H'; split; [exact H'|]; now intros p [= <-] | tauto].
  - injection He as <-. simpl. split; [|reflexivity].
    split; [intros H; split; [exact H|discriminate] | tauto].
Qed.

(** A field that is absent from a plain event reads as [undefined]. *)
Lemma absent_lacks (e : object) (k : string) :
  JS.get (fields e) k = None -> parent e = None -> lacks e k.
Proof.
  intros Hg Hp. unfold lacks. rewrite (read_plain e k Hp).
  now apply get_absent_prop.
Qed.


End FilterProperties.

(** ** Channels and counting *)

Local Open Scope list_scope.

Lemma channel_eqb_spec a b : reflect (a = b) (channel_eqb a b).
Proof. destruct a, b; simpl; constructor; congruence. Qed.

Lemma has_channel_In c l : has_channel c l = true <-> In c l.
Proof.
  unfold has_channel. rewrite existsb_exists. split.
  - intros [x [Hx E]]. now destruct (channel_eqb_spec c x); subst.
  - intros H. exists c. split; [exact H|]. now destruct (channel_eqb_spec c c).
Qed.

Lemma has_stream_In o l : has_stream o l = true <-> In o l.
Proof.
  unfold has_stream. rewrite existsb_exists. split.
  - intros [x [Hx E]]. apply Nat.eqb_eq in E. now subst.
  - intros H. exists o. split; [exact H|]. apply Nat.eqb_refl.
Qed.

Lemma drop_channel_absent c l : ~ In c l -> drop_channel c l = l.
Proof.
  induction l as [|x l IH]; simpl; intros H; [reflexivity|].
  destruct (channel_eqb_spec c x) as [->|Hne]; simpl.
  - exfalso. apply H. now left.
  - rewrite IH; [reflexivity|]. intros Hc. apply H. now right.
Qed.

Lemma drop_channel_length c l :
  NoDup l -> In c l -> S (length (drop_channel c l)) = length l.
Proof.
  induction 1 as [|x l Hx Hnd IH]; simpl; intros Hin; [destruct Hin|].
  destruct (channel_eqb_spec c x) as [->|Hne]; simpl.
  - now rewrite drop_channel_absent.
  - destruct Hin as [->|Hin]; [congruence|]. now rewrite IH.
Qed.

Lemma count_app f l l' : count f (l ++ l') = count f l + count f l'.
Proof. unfold count. now rewrite filter_app, length_app. Qed.

Lemma enabled_NoDup opts : NoDup (enabled opts).
Proof.
  unfold enabled.
  destruct (flag_on (logs opts) && token_set (logstoken opts)),
    (flag_on (stats opts) && token_set (statstoken opts)),
    (flag_on (dockerEvents opts) && token_set (eventstoken opts)); simpl;
    repeat constructor; simpl; intuition congruence.
Qed.

Lemma still_open_NoDup opts evs : NoDup (still_open opts evs).
Proof. apply NoDup_filter, enabled_NoDup. Qed.

Lemma ended_app c evs ev :
  ended c (evs ++ [ev])
  = ended c evs || match ev with
                   | SourceEnded c' => channel_eqb c c'
                   | _ => false
                   end.
Proof. unfold ended. rewrite existsb_app. simpl. now rewrite orb_false_r. Qed.

Lemma still_open_other opts evs ev :
  (forall c, ev <> SourceEnded c) ->
  still_open opts (evs ++ [ev]) = still_open opts evs.
Proof.
  intros H. unfold still_open. apply filter_ext. intros c.
  rewrite ended_app. destruct ev; try now rewrite orb_false_r.
  now elim (H c0).
Qed.

Lemma still_open_ended opts evs c :
  still_open opts (evs ++ [SourceEnded c]) = drop_channel c (still_open opts evs).
Proof.
  unfold still_open, drop_channel.
  induction (enabled opts) as [|x l IH]; simpl; [reflexivity|].
  rewrite ended_app. destruct (ended x evs); simpl.
  - exact IH.
  - destruct (channel_eqb_spec x c) as [->|Hne]; simpl.
    + destruct (channel_eqb_spec c c); [exact IH|congruence].
    + destruct (channel_eqb_spec c x); [congruence|]. simpl. now rewrite IH.
Qed.

(** ** The event loop *)

Section LoopProperties.

Context {engine : RegExpEngine}.

Lemma run_crashed opts e s evs : run opts (Crashed e s) evs = Crashed e s.
Proof. now destruct evs. Qed.

Lemma run_app opts evs evs' : forall p,
  run opts p (evs ++ evs') = run opts (run opts p evs) evs'.
Proof.
  induction evs as [|ev evs IH]; intros p; simpl.
  - now destruct p, evs'.
  - destruct p; [apply IH|]. now rewrite run_crashed.
Qed.

Lemma run_last opts p evs ev s' :
  run opts p (evs ++ [ev]) = Running s' ->
  exists s, run opts p evs = Running s /\ handle opts s ev = Running s'.
Proof.
  rewrite run_app. destruct (run opts p evs) as [s|e s]; simpl.
  - intros H. exists s. split; [reflexivity|].
    now destruct (handle opts s ev).
  - discriminate.
Qed.

Lemma write_to_fields dests chunk : forall s,
  out (write_to dests chunk s) = out s
  /\ noRestart (write_to dests chunk s) = noRestart s
  /\ streamsOpened (write_to dests chunk s) = streamsOpened s
  /\ sources (write_to dests chunk s) = sources s
  /\ feeding (write_to dests chunk s) = feeding s
  /\ piped (write_to dests chunk s) = piped s
  /\ watched (write_to dests chunk s) = watched s
  /\ handshakes (write_to dests chunk s) = handshakes s
  /\ opened (write_to dests chunk s) = opened s
  /\ log (write_to dests chunk s) = log s ++ map (fun d => Write d chunk) dests.
Proof.
  induction dests as [|d rest IH]; intros s; simpl.
  - now rewrite app_nil_r.
  - destruct (IH (emit (Write d chunk) s)) as (-> & -> & -> & -> & -> & -> & -> & -> & -> & ->).
    simpl. now rewrite <- app_assoc.
Qed.

Lemma write_all_fields chunks : forall s,
  out (write_all chunks s) = out s
  /\ noRestart (write_all chunks s) = noRestart s
  /\ streamsOpened (write_all chunks s) = streamsOpened s
  /\ sources (write_all chunks s) = sources s
  /\ feeding (write_all chunks s) = feeding s
  /\ piped (write_all chunks s) = piped s
  /\ watched (write_all chunks s) = watched s
  /\ handshakes (write_all chunks s) = handshakes s
  /\ opened (write_all chunks s) = opened s
  /\ log (write_all chunks s)
     = log s ++ flat_map (fun chunk => map (fun d => Write d chunk) (piped s)) chunks.
Proof.
  induction chunks as [|chunk rest IH]; intros s; simpl.
  - now rewrite app_nil_r.
  - destruct (IH (write_to (piped s) chunk s)) as (-> & -> & -> & -> & -> & -> & -> & -> & -> & ->).
    destruct (write_to_fields (piped s) chunk s) as (-> & -> & -> & -> & -> & -> & -> & -> & -> & ->).
    now rewrite <- app_assoc.
Qed.

Lemma count_writes f chunks dests :
  (forall d chunk, f (Write d chunk) = false) ->
  count f (flat_map (fun chunk => map (fun d => Write d chunk) dests) chunks) = 0.
Proof.
  intros Hf. unfold count.
  assert (Hd : forall chunk,
             List.filter f (map (fun d => Write d chunk) dests) = []).
  { intros chunk. induction dests as [|d ds IHd]; simpl; [reflexivity|].
    now rewrite Hf. }
  induction chunks as [|chunk rest IH]; simpl; [reflexivity|].
  now rewrite filter_app, Hd.
Qed.

Lemma drop_stream_self o : drop_stream o [o] = [].
Proof. unfold drop_stream. simpl. now rewrite Nat.eqb_refl. Qed.

Lemma drop_stream_keeps o o' l : o <> o' -> In o' l -> In o' (drop_stream o l).
Proof.
  intros Hne Hin. unfold drop_stream. apply filter_In. split; [exact Hin|].
  apply negb_true_iff, Nat.eqb_neq. exact Hne.
Qed.

Lemma start_invariant opts s0 : start opts = Running s0 -> invariant opts [] s0.
Proof.
  unfold start, still_open.
  destruct (flag_on (logs opts) && token_set (logstoken opts)) eqn:El,
    (flag_on (stats opts) && token_set (statstoken opts)) eqn:Es,
    (flag_on (dockerEvents opts) && token_set (eventstoken opts)) eqn:Ee;
    simpl; try discriminate;
    unfold pipe, connect; simpl; destruct (secure opts) eqn:Esec; simpl;
    intros H; injection H as <-;
    (constructor; simpl;
     [ now exists 0%nat
     | reflexivity
     | unfold still_open, enabled; rewrite El, Es, Ee; reflexivity
     | intros _; split; [reflexivity|]; split;
       [intros o [= <-]; split; reflexivity | split; reflexivity]
     | discriminate
     | intros Hs o [= <-]; try congruence; left; simpl; auto ]).
Qed.

Lemma data_invariant opts evs s c obj s' :
  invariant opts evs s -> handle opts s (Data c obj) = Running s' ->
  invariant opts (evs ++ [Data c obj]) s'.
Proof.
  intros [Ho Hc Hs Hop Hsh Hsec] H. simpl in H.
  assert (Hso : still_open opts (evs ++ [Data c obj]) = still_open opts evs)
    by (apply still_open_other; discriminate).
  assert (Hkeep : invariant opts (evs ++ [Data c obj]) s).
  { constructor; auto; [congruence|].
    intros Hs' o Hout. destruct (Hsec Hs' o Hout); [now left|].
    right. apply in_or_app. now left. }
  destruct (has_channel c (feeding s)); [|now injection H as <-].
  destruct (filter opts obj) as [chunks|]; [|discriminate].
  injection H as <-.
  destruct (write_all_fields chunks s) as (E1 & E2 & E3 & E4 & E0 & E5 & E6 & E7 & E8 & E9).
  destruct Hkeep as [Ho' Hc' Hs'' Hop' Hsh' Hsec'].
  constructor; rewrite ?E1, ?E2, ?E3, ?E4, ?E5, ?E6, ?E7, ?E8, ?E9; auto.
  - intros Hne. destruct (Hop' Hne) as (A & B & C & D).
    rewrite !count_app, C, D, !count_writes by reflexivity. auto.
  - intros Hnil. destruct (Hsh' Hnil) as (A & C & D & pre & o & post & E).
    rewrite !count_app, C, D, !count_writes by reflexivity.
    repeat split; auto.
    exists pre, o, (post ++ flat_map (fun chunk => map (fun d => Write d chunk) (piped s)) chunks).
    rewrite E. now rewrite <- !app_assoc.
Qed.

Lemma source_ended_invariant opts evs s c s' :
  invariant opts evs s -> handle opts s (SourceEnded c) = Running s' ->
  invariant opts (evs ++ [SourceEnded c]) s'.
Proof.
  intros [Ho Hc Hs Hop Hsh Hsec] H. simpl in H.
  assert (Hso : still_open opts (evs ++ [SourceEnded c])
                = drop_channel c (sources s))
    by (rewrite Hs; apply still_open_ended).
  assert (Hsec' : secure opts = true -> forall o, out s = Some o ->
            In o (handshakes s) \/ In (SecureConnect o true) (evs ++ [SourceEnded c])).
  { intros Hs' o Hout. destruct (Hsec Hs' o Hout); [now left|].
    right. apply in_or_app. now left. }
  destruct (has_channel c (sources s)) eqn:Hin.
  - apply has_channel_In in Hin.
    assert (Hlen : S (length (drop_channel c (sources s))) = length (sources s)).
    { apply drop_channel_length; [|exact Hin]. rewrite Hs. apply still_open_NoDup. }
    assert (Hne : sources s <> []) by (intros E; rewrite E in Hin; destruct Hin).
    destruct (Hop Hne) as (A & B & C & D).
    destruct Ho as [o [Hout Hopened]]. destruct (B o Hout) as [Hw Hp].
    unfold streamClosed in H. simpl in H.
    destruct (streamsOpened s - 1 <=? 0)%Z eqn:Hz.
    + apply Z.leb_le in Hz.
      assert (Hnil : drop_channel c (sources s) = []).
      { destruct (drop_channel c (sources s)); [reflexivity|]. simpl in Hlen. lia. }
      rewrite A, Hout in H. simpl in H. rewrite Hout in H. injection H as <-.
      constructor; simpl; auto.
      * now exists o.
      * rewrite Hnil. simpl. rewrite Hnil in Hlen. simpl in Hlen. lia.
      * intros Hx. now elim Hx.
      * intros _. rewrite Hw, drop_stream_self, !count_app, C, D.
        repeat split. exists (log s), o, []. now rewrite <- app_assoc.
    + apply Z.leb_gt in Hz. injection H as <-.
      constructor; simpl; auto.
      * now exists o.
      * lia.
      * intros Hnil. rewrite Hnil in Hlen. simpl in Hlen. lia.
  - injection H as <-.
    assert (Hout : ~ In c (sources s)).
    { intros Hx. apply has_channel_In in Hx. congruence. }
    rewrite drop_channel_absent in Hso by exact Hout.
    constructor; auto; congruence.
Qed.

Lemma end_of_data_invariant opts evs s c s' :
  invariant opts evs s -> handle opts s (EndOfData c) = Running s' ->
  invariant opts (evs ++ [EndOfData c]) s'.
Proof.
  intros [Ho Hc Hs Hop Hsh Hsec] H. simpl in H.
  assert (Hso : still_open opts (evs ++ [EndOfData c]) = still_open opts evs)
    by (apply still_open_other; discriminate).
  assert (Hsec' : secure opts = true -> forall o, out s = Some o ->
            In o (handshakes s) \/ In (SecureConnect o true) (evs ++ [EndOfData c])).
  { intros Hs' o Hout. destruct (Hsec Hs' o Hout); [now left|].
    right. apply in_or_app. now left. }
  destruct (has_channel c (feeding s)); injection H as <-;
    constructor; simpl; auto; congruence.
Qed.

Lemma drop_stream_other o o' : o <> o' -> drop_stream o [o'] = [o'].
Proof.
  intros Hne. unfold drop_stream. simpl.
  now rewrite (proj2 (Nat.eqb_neq o o') Hne).
Qed.

Lemma out_ended_invariant opts evs s o s' :
  invariant opts evs s -> handle opts s (OutEnded o) = Running s' ->
  invariant opts (evs ++ [OutEnded o]) s'.
Proof.
  intros [Ho Hc Hs Hop Hsh Hsec] H. simpl in H.
  assert (Hso : still_open opts (evs ++ [OutEnded o]) = still_open opts evs)
    by (apply still_open_other; discriminate).
  assert (Hsec' : secure opts = true -> forall o', out s = Some o' ->
            In o' (handshakes s) \/ In (SecureConnect o' true) (evs ++ [OutEnded o])).
  { intros Hs' o' Hout. destruct (Hsec Hs' o' Hout); [now left|].
    right. apply in_or_app. now left. }
  destruct (has_stream o (watched s)) eqn:Hin.
  - apply has_stream_In in Hin.
    assert (Hne : sources s <> []).
    { intros E. destruct (Hsh E) as [W _]. rewrite W in Hin. destruct Hin. }
    destruct (Hop Hne) as (A & B & C & D).
    destruct Ho as [o0 [Hout Hopened]]. destruct (B o0 Hout) as [Hw Hp].
    rewrite Hw in Hin. destruct Hin as [<-|[]].
    injection H as <-. unfold pipe. simpl. rewrite Hout. unfold connect. simpl.
    rewrite Hopened, Hw, Hp, drop_stream_self.
    destruct (secure opts) eqn:Esec; simpl;
      (constructor; simpl;
       [ now exists (S o0)
       | exact Hc
       | congruence
       | intros _; split; [reflexivity|]; split;
         [ intros o [= <-]; split; reflexivity
         | rewrite <- !app_assoc, !count_app, C, D; split; reflexivity ]
       | intros E; now elim Hne
       | intros Hs' o [= <-]; try congruence; left; apply in_or_app; right; now left ]).
  - injection H as <-. constructor; simpl; auto; [congruence|].
    intros Hne. destruct (Hop Hne) as (A & B & C & D).
    split; [exact A|]. split; [|now split].
    intros o0 Hout. destruct (B o0 Hout) as [Hw Hp]. split; [exact Hw|].
    rewrite Hp. apply drop_stream_other. intros ->.
    rewrite Hw in Hin. simpl in Hin. now rewrite Nat.eqb_refl in Hin.
Qed.

Lemma secure_connect_invariant opts evs s o a s' :
  invariant opts evs s -> handle opts s (SecureConnect o a) = Running s' ->
  invariant opts (evs ++ [SecureConnect o a]) s'.
Proof.
  intros [Ho Hc Hs Hop Hsh Hsec] H. simpl in H.
  assert (Hso : still_open opts (evs ++ [SecureConnect o a]) = still_open opts evs)
    by (apply still_open_other; discriminate).
  destruct (has_stream o (handshakes s)) eqn:Hin.
  - destruct a; simpl in H; [|discriminate]. injection H as <-.
    constructor; simpl; auto; [congruence|].
    intros Hs' o' Hout. destruct (Nat.eq_dec o o') as [<-|Hne].
    + right. apply in_or_app. right. now left.
    + destruct (Hsec Hs' o' Hout) as [Hh|Hh].
      * left. now apply drop_stream_keeps.
      * right. apply in_or_app. now left.
  - injection H as <-. constructor; auto; [congruence|].
    intros Hs' o' Hout. destruct (Hsec Hs' o' Hout); [now left|].
    right. apply in_or_app. now left.
Qed.

Lemma handle_invariant opts evs s ev s' :
  invariant opts evs s -> handle opts s ev = Running s' ->
  invariant opts (evs ++ [ev]) s'.
Proof.
  destruct ev.
  - apply data_invariant.
  - apply end_of_data_invariant.
  - apply source_ended_invariant.
  - apply out_ended_invariant.
  - apply secure_connect_invariant.
Qed.

(** The invariant holds in every state the program reaches. *)
Lemma reached_invariant opts s0 : start opts = Running s0 ->
  forall evs s, run opts (Running s0) evs = Running s -> invariant opts evs s.
Proof.
  intros Hstart evs. induction evs as [|ev evs IH] using rev_ind; intros s H.
  - simpl in H. injection H as <-. now apply start_invariant.
  - destruct (run_last _ _ _ _ _ H) as [s1 [H1 H2]].
    apply (handle_invariant opts evs s1); [apply IH; exact H1 | exact H2].
Qed.

Lemma start_running_enabled opts s0 :
  start opts = Running s0 -> (1 <= length (enabled opts))%nat.
Proof.
  unfold start, enabled.
  destruct (flag_on (logs opts) && token_set (logstoken opts)),
    (flag_on (stats opts) && token_set (statstoken opts)),
    (flag_on (dockerEvents opts) && token_set (eventstoken opts));
    simpl; try discriminate; intros _; lia.
Qed.

Lemma still_open_start opts : still_open opts [] = enabled opts.
Proof.
  unfold still_open. induction (enabled opts) as [|c l IH]; simpl in *;
    congruence.
Qed.

Lemma still_open_nil opts evs :
  (forall c, In c (enabled opts) -> In (SourceEnded c) evs) ->
  still_open opts evs = [].
Proof.
  intros H. unfold still_open.
  destruct (List.filter (fun c => negb (ended c evs)) (enabled opts)) as [|c l] eqn:E;
    [reflexivity|].
  assert (Hin : In c (List.filter (fun c => negb (ended c evs)) (enabled opts)))
    by (rewrite E; now left).
  apply filter_In in Hin. destruct Hin as [Hin Hn].
  apply negb_true_iff in Hn. exfalso.
  assert (ended c evs = true); [|congruence].
  unfold ended. apply existsb_exists. exists (SourceEnded c).
  split; [now apply H|]. now destruct (channel_eqb_spec c c).
Qed.

Lemma source_ended_runs opts evs s c :
  invariant opts evs s -> exists s', handle opts s (SourceEnded c) = Running s'.
Proof.
  intros [[o [Hout _]] _ _ _ _ _]. simpl.
  destruct (has_channel c (sources s)); [|now exists s].
  unfold streamClosed. simpl.
  destruct (streamsOpened s - 1 <=? 0)%Z; [|eauto].
  destruct (noRestart s); simpl; rewrite Hout; eauto.
Qed.



(** ** Which sources are piped into [filter] *)






(** C3. Open-count invariant and single shutdown.  After a successful
    start with N channels enabled (N is at least 1) the count is N.  However
    the callbacks are interleaved, the count is the number of enabled sources
    that have not completed; the completion of an open source lowers it by
    exactly one and a completion that is reported again changes nothing.
    Until all have completed there has been no shutdown; once all have, the
    count is 0 and the log holds exactly one cancellation of the restart and
    exactly one destruction of the transport, the first right before the
    second. *)
Theorem open_count_invariant (opts : options) (s0 : state)
  (evs : list event) (s : state) :
  start opts = Running s0 ->
  run opts (Running s0) evs = Running s ->
  (1 <= length (enabled opts))%nat
  /\ streamsOpened s0 = Z.of_nat (length (enabled opts))
  /\ streamsOpened s = Z.of_nat (length (still_open opts evs))
  /\ (forall c, In c (still_open opts evs) ->
        exists s', handle opts s (SourceEnded c) = Running s'
                   /\ streamsOpened s' = (streamsOpened s - 1)%Z)
  /\ (forall c, ~ In c (still_open opts evs) ->
        handle opts s (SourceEnded c) = Running s)
  /\ (still_open opts evs <> [] ->
        count is_unwatch (log s) = 0%nat /\ count is_destroy (log s) = 0%nat)
  /\ ((forall c, In c (enabled opts) -> In (SourceEnded c) evs) ->
        streamsOpened s = 0%Z
        /\ count is_unwatch (log s) = 1%nat /\ count is_destroy (log s) = 1%nat
        /\ exists pre o post, log s = pre ++ [Unwatch o; Destroy o] ++ post).
Proof.
  intros Hstart Hrun.
  pose proof (start_invariant opts s0 Hstart) as I0.
  pose proof (reached_invariant opts s0 Hstart evs s Hrun) as I.
  split; [now apply (start_running_enabled opts s0)|].
  split; [now rewrite (inv_count _ _ _ I0), (inv_sources _ _ _ I0),
            still_open_start|].
  split; [now rewrite (inv_count _ _ _ I), (inv_sources _ _ _ I)|].
  split; [|split; [|split]].
  - intros c Hin. destruct (source_ended_runs opts evs s c I) as [s' Hs'].
    exists s'. split; [exact Hs'|].
    pose proof (handle_invariant opts evs s _ s' I Hs') as I'.
    rewrite (inv_count _ _ _ I'), (inv_sources _ _ _ I'), still_open_ended.
    rewrite (inv_count _ _ _ I), (inv_sources _ _ _ I).
    pose proof (drop_channel_length c (still_open opts evs)
                  (still_open_NoDup opts evs) Hin). lia.
  - intros c Hout. simpl. rewrite (inv_sources _ _ _ I).
    destruct (has_channel c (still_open opts evs)) eqn:E; [|reflexivity].
    apply has_channel_In in E. contradiction.
  - intros Hne. rewrite <- (inv_sources _ _ _ I) in Hne.
    destruct (inv_open _ _ _ I Hne) as (_ & _ & C & D). now split.
  - intros Hall. pose proof (still_open_nil opts evs Hall) as Hnil.
    rewrite <- (inv_sources _ _ _ I) in Hnil.
    destruct (inv_shut _ _ _ I Hnil) as (_ & C & D & E).
    rewrite (inv_count _ _ _ I), Hnil. auto.
Qed.

(** C4, the defect.  Logs and stats are enabled.  The logs source comes to
    its end, its end-of-stream callback runs and then the transport is over:
    the stats source is still open, so the program reconnects, transport 1
    is made and the filter is piped into it.  A stats event that passes the
    filter is then written nowhere: the end of the logs source has ended the
    filter, which let go of the stats source.  When the logs source is over
    through an error instead, the same event is written to transport 1. *)
Theorem source_end_stops_forwarding :
  start Ex.two_opts = Running Ex.two_started
  /\ run Ex.two_opts (Running Ex.two_started) Ex.logs_done = Running Ex.lonely
  /\ still_open Ex.two_opts Ex.logs_done = [Stats]
  /\ out Ex.lonely = Some 1%nat
  /\ log Ex.lonely
     = log Ex.two_started
       ++ [Unpipe 0; NetConnect 1 80 "data.logentries.com"; PipeOut 1; Watch 1]
  /\ filter Ex.two_opts Ex.sample = Ok ["ST1"; " "; Ex.sample_json; LF]
  /\ handle Ex.two_opts Ex.lonely (Data Stats Ex.sample) = Running Ex.lonely
  /\ count is_write (log Ex.lonely) = 0%nat
  /\ run Ex.two_opts (Running Ex.two_started)
       [SourceEnded Logs; OutEnded 0; Data Stats Ex.sample]
     = Running Ex.heard
  /\ log Ex.heard
     = log Ex.lonely ++ map (Write 1) ["ST1"; " "; Ex.sample_json; LF].
Proof. repeat split; vm_compute; reflexivity. Qed.

(** C7. Zero-channel fatal error.  When each of the three channels has its
    flag set to false or its token empty or unset, [start] throws the
    configuration error, and up to then it has only printed its notice and
    called the container listing: no transport was connected. *)
Theorem no_channel_is_fatal (opts : options) :
  (logs opts = Some false \/ token_set (logstoken opts) = false) ->
  (stats opts = Some false \/ token_set (statstoken opts) = false) ->
  (dockerEvents opts = Some false \/ token_set (eventstoken opts) = false) ->
  exists s,
    start opts = Crashed (Error no_channel_message) s
    /\ log s = [ConsoleLog "Started successfully, streaming logs ..."; AllContainers]
    /\ count is_connect (log s) = 0%nat
    /\ out s = None.
Proof.
  intros Hl Hs He.
  assert (El : flag_on (logs opts) && token_set (logstoken opts) = false)
    by (destruct Hl as [-> | ->]; [reflexivity | apply andb_false_r]).
  assert (Es : flag_on (stats opts) && token_set (statstoken opts) = false)
    by (destruct Hs as [-> | ->]; [reflexivity | apply andb_false_r]).
  assert (Ee : flag_on (dockerEvents opts) && token_set (eventstoken opts) = false)
    by (destruct He as [-> | ->]; [reflexivity | apply andb_false_r]).
  unfold start. rewrite El, Es, Ee. simpl. eexists. repeat split.
Qed.

(** C8, the defect.  Secure mode, logs and stats enabled.  Transport 0 is a
    secure one and carries the handshake callback.  Its peer cannot be
    verified: the runtime rejects it, the callback never runs, and what the
    program is told is that the transport is over.  It takes that for a
    closure and connects again at once, and again for the next transport:
    the process goes on and nothing is thrown. *)
Theorem rejected_peer_is_retried :
  secure Ex.tls_opts = true
  /\ start Ex.tls_opts = Running Ex.tls_started
  /\ out Ex.tls_started = Some 0%nat /\ handshakes Ex.tls_started = [0%nat]
  /\ handle Ex.tls_opts Ex.tls_started (peer_rejected 0) = Running Ex.tls_again
  /\ log Ex.tls_again
     = log Ex.tls_started
       ++ [Unpipe 0; TlsConnect 1 443 "data.logentries.com"; PipeOut 1; Watch 1]
  /\ run Ex.tls_opts (Running Ex.tls_started)
       [peer_rejected 0; peer_rejected 1; peer_rejected 2]
     = Running Ex.tls_thrice
  /\ out Ex.tls_thrice = Some 3%nat
  /\ count is_connect (log Ex.tls_thrice) = 4%nat.
Proof. repeat split; vm_compute; reflexivity. Qed.

End LoopProperties.

(* ========================================================================= *)
(** * Worked instances *)
(* ========================================================================= *)

Section Instances.

#[local] Existing Instance Simple.engine.

Local Open Scope string_scope.

Ltac valid_patterns :=
  let p := fresh "p" in
  let Hin := fresh "Hin" in
  let Hne := fresh "Hne" in
  intros p Hin Hne; simpl in Hin;
  repeat (destruct Hin as [<-|Hin]; [try (now elim Hne); vm_compute; discriminate|]);
  destruct Hin.

Lemma web_valid : patterns_valid Ex.web_opts.
Proof. valid_patterns. Qed.



Lemma typed_valid : patterns_valid Ex.typed_opts.
Proof. valid_patterns. Qed.

(** The truth table at the event named web1 of image nginx, under a name
    pattern that wants a leading web and an image pattern that bars redis:
    both checks hold and the event is forwarded. *)
Lemma filter_truth_table_witness :
  addAll (add Ex.web_opts) (raw Ex.hello) = Ok (raw Ex.hello)
  /\ patterns_valid Ex.web_opts
  /\ checks_hold Ex.web_opts (raw Ex.hello)
  /\ filter Ex.web_opts Ex.hello = Ok ["ABC"; " "; JS.stringify Ex.hello; LF].
Proof.
  destruct (filter_truth_table Ex.web_opts Ex.hello (raw Ex.hello) eq_refl
              web_valid) as [b [Hb [Hiff [Hf _]]]].
  assert (E : b = true) by (vm_compute in Hb; congruence).
  split; [reflexivity|]. split; [exact web_valid|]. split; [apply Hiff, E|].
  rewrite Hf, E. reflexivity.
Defined.



(** Enrichment host=h1 on an event that has a host already. *)
Lemma enrichment_precedence_witness :
  JS.get Ex.hosted "host" = Some (JS.Str "old")
  /\ exists e,
       addAll (add Ex.h1_opts) (raw Ex.hosted) = Ok e
       /\ JS.get (fields e) "host" = Some (JS.Str "h1")
       /\ read e "host" = JS.Str "h1"
       /\ JS.get (fields e) "line" = Some (JS.Str "hello").
Proof.
  destruct (enrichment_precedence Ex.h1_opts Ex.hosted) as [H _].
  destruct (H _ eq_refl eq_refl) as (e & He & Hw & Hs & _).
  split; [reflexivity|]. exists e. split; [exact He|].
  destruct (Hw "host" (JS.Str "h1")) as [A B]; [discriminate|reflexivity|].
  split; [exact A|]. split; [exact B|].
  exact (Hs "line" eq_refl).
Defined.

(** The enrichment set of [-a hasOwnProperty=x], on any event. *)
Lemma own_method_witness :
  JS.get Ex.own_method "hasOwnProperty" = Some (JS.Str "x")
  /\ filter Ex.own_method_opts Ex.sample = Throw (TypeError not_a_function).
Proof.
  destruct (own_method_is_fatal Ex.own_method_opts Ex.own_method eq_refl)
    with (obj := Ex.sample) as (_ & H & _); [discriminate|].
  split; [reflexivity | exact H].
Defined.

(** The record of the end-to-end example. *)
Lemma wire_format_witness :
  exists e token,
    addAll (add Ex.hello_opts) (raw Ex.hello) = Ok e
    /\ select_token Ex.hello_opts e = Some token
    /\ token <> ""
    /\ ["ABC"; " "; Ex.hello_json; LF]
       = [token; " "; JS.stringify (fields e); LF].
Proof.
  destruct wire_format as [H _].
  destruct (H Ex.hello_opts Ex.hello ["ABC"; " "; Ex.hello_json; LF] eq_refl)
    as (e & token & A & B & C & D & _); [discriminate|].
  exists e, token. auto.
Defined.

(** An event with a name and an image only, under the patterns of
    [Ex.web_opts]. *)
Lemma undefined_event_dropped_witness :
  addAll (add Ex.web_opts) (raw Ex.shapeless) = Ok (raw Ex.shapeless)
  /\ patterns_valid Ex.web_opts
  /\ lacks (raw Ex.shapeless) "line"
  /\ filter Ex.web_opts Ex.shapeless = Ok []
  /\ handle Ex.web_opts Ex.two_started (Data Logs Ex.shapeless)
     = Running Ex.two_started.
Proof.
  destruct (undefined_event_dropped Ex.web_opts Ex.shapeless (raw Ex.shapeless)
              eq_refl web_valid eq_refl eq_refl eq_refl) as [H H'].
  split; [reflexivity|]. split; [exact web_valid|]. split; [reflexivity|].
  split; [exact H|apply H'].
Defined.

(** C9 as the specification words it fails.  The event [Ex.shapeless] has
    none of line, type, stats.  Under [-a type=prod] the merge gives it a
    type before the token is chosen, and it is forwarded under the events
    token.  Under [-a hasOwnProperty=x] the merge throws and the callback
    that delivers the event ends the process.  Under a name pattern that is
    not a regular expression the checks throw. *)
Lemma shapeless_event_not_dropped :
  JS.get Ex.shapeless "line" = None
  /\ JS.get Ex.shapeless "type" = None
  /\ JS.get Ex.shapeless "stats" = None
  /\ patterns_valid Ex.typed_opts
  /\ filter Ex.typed_opts Ex.shapeless = Ok ["ET"; " "; Ex.typed_json; LF]
  /\ filter Ex.own_method_opts Ex.shapeless = Throw (TypeError not_a_function)
  /\ handle Ex.own_method_opts Ex.own_method_started (Data Logs Ex.shapeless)
     = Crashed (TypeError not_a_function) Ex.own_method_started
  /\ filter Cmd.unclosed Ex.shapeless = Throw (SyntaxError "(")
  /\ ~ drops_shapeless.
Proof.
  repeat (split; [first [exact typed_valid | vm_compute; reflexivity]|]).
  intros H.
  specialize (H Ex.typed_opts Ex.shapeless typed_valid eq_refl eq_refl eq_refl).
  vm_compute in H. discriminate.
Qed.


(** Two sources; stats ends first, the transport is replaced, logs ends
    last. *)
Lemma open_count_invariant_witness :
  start Ex.two_opts = Running Ex.two_started
  /\ run Ex.two_opts (Running Ex.two_started) Ex.two_events
     = Running Ex.two_finished
  /\ streamsOpened Ex.two_started = 2%Z
  /\ streamsOpened Ex.two_finished = 0%Z
  /\ count is_unwatch (log Ex.two_finished) = 1%nat
  /\ count is_destroy (log Ex.two_finished) = 1%nat.
Proof.
  assert (Hs : start Ex.two_opts = Running Ex.two_started)
    by (vm_compute; reflexivity).
  assert (Hr : run Ex.two_opts (Running Ex.two_started) Ex.two_events
               = Running Ex.two_finished) by (vm_compute; reflexivity).
  destruct (open_count_invariant Ex.two_opts Ex.two_started Ex.two_events
              Ex.two_finished Hs Hr) as (_ & H0 & _ & _ & _ & _ & Hall).
  destruct Hall as (A & B & C & _).
  { intros c Hin. vm_compute in Hin.
    destruct Hin as [<-|[<-|[]]]; simpl; auto. }
  repeat split; assumption.
Defined.

(** The command-line defaults with no token at all. *)
Lemma no_channel_is_fatal_witness :
  exists s,
    start Ex.defaults = Crashed (Error no_channel_message) s
    /\ log s = [ConsoleLog "Started successfully, streaming logs ..."; AllContainers]
    /\ count is_connect (log s) = 0%nat
    /\ out s = None.
Proof.
  apply no_channel_is_fatal; right; reflexivity.
Defined.

End Instances.

(* ========================================================================= *)
(** * Further properties: tokens, command line, records, event loop *)
(* ========================================================================= *)

Local Open Scope string_scope.
Local Open Scope list_scope.

(** ** Tokens *)

Lemma in_enabled opts c :
  In c (enabled opts)
  <-> flag_on (flag_of opts c) = true /\ token_set (token_of opts c) = true.
Proof.
  rewrite <- andb_true_iff. unfold enabled.
  destruct c; simpl;
    destruct (flag_on (logs opts) && token_set (logstoken opts)),
      (flag_on (stats opts) && token_set (statstoken opts)),
      (flag_on (dockerEvents opts) && token_set (eventstoken opts));
    simpl; intuition congruence.
Qed.

Lemma start_running opts :
  enabled opts <> [] ->
  exists s, start opts = Running s /\ sources s = enabled opts.
Proof.
  intros Hne.
  assert (H : exists s, start opts = Running s).
  { revert Hne. unfold start, enabled.
    destruct (flag_on (logs opts) && token_set (logstoken opts)),
      (flag_on (stats opts) && token_set (statstoken opts)),
      (flag_on (dockerEvents opts) && token_set (eventstoken opts));
      simpl; intros Hne; try (now elim Hne); eauto. }
  destruct H as [s Hs]. exists s. split; [exact Hs|].
  rewrite (inv_sources _ _ _ (start_invariant opts s Hs)).
  apply still_open_start.
Qed.

Lemma start_crashing opts :
  enabled opts = [] ->
  exists s, start opts = Crashed (Error no_channel_message) s
            /\ sources s = []
            /\ log s = [ConsoleLog "Started successfully, streaming logs ...";
                        AllContainers].
Proof.
  unfold start, enabled.
  destruct (flag_on (logs opts) && token_set (logstoken opts)),
    (flag_on (stats opts) && token_set (statstoken opts)),
    (flag_on (dockerEvents opts) && token_set (eventstoken opts));
    simpl; try discriminate; intros _; eexists; repeat split.
Qed.

(** The sources of [start], whether it returns or throws. *)
Lemma start_sources opts c :
  In c (sources (state_of (start opts))) <-> In c (enabled opts).
Proof.
  destruct (enabled opts) as [|c0 l] eqn:E.
  - destruct (start_crashing opts E) as (s & -> & Hs & _). simpl.
    now rewrite Hs.
  - destruct (start_running opts) as (s & -> & Hs); [congruence|]. simpl.
    now rewrite Hs, E.
Qed.

Lemma token_set_or a b :
  token_set (or_token (or_token a b) (Some "")) = token_set a || token_set b.
Proof.
  unfold or_token. destruct (token_set a) eqn:Ea; simpl.
  - now rewrite Ea.
  - destruct (token_set b) eqn:Eb; simpl; [now rewrite Eb|reflexivity].
Qed.

(** X1. With a token given on the command line or in the environment,
    [generateTokens] calls [start] at once, and a channel is opened exactly
    when its flag is not false and its own token or the common token is
    given; its token is then its own when that is given, the common one
    otherwise.  [start] throws, with the message about the missing key, only
    when no channel is opened. *)
Theorem provided_tokens_open_channels (token : option string) (opts : options) :
  token_set token || token_set (logstoken opts)
  || token_set (statstoken opts) || token_set (eventstoken opts) = true ->
  exists p,
    generateTokens token opts = Started ["Using provided tokens ... "] p
    /\ (forall c,
          In c (sources (state_of p))
          <-> flag_on (flag_of opts c) = true
              /\ (token_set (token_of opts c) = true \/ token_set token = true))
    /\ (forall c,
          token_of (provided token opts) c
          = if token_set (token_of opts c) then token_of opts c
            else if token_set token then token else Some "")
    /\ (forall e s, p = Crashed e s ->
          e = Error no_channel_message /\ sources s = []).
Proof.
  intros Hany. exists (start (provided token opts)).
  unfold generateTokens. rewrite Hany. split; [reflexivity|]. split; [|split].
  - intros c. rewrite start_sources, in_enabled.
    destruct c; simpl; rewrite token_set_or, orb_true_iff; reflexivity.
  - intros c. destruct c; simpl; unfold or_token;
      match goal with
      | |- context [token_set (?f opts)] => destruct (token_set (f opts)) eqn:E
      end; simpl; rewrite ?E; try reflexivity;
      destruct (token_set token) eqn:E'; simpl; rewrite ?E'; reflexivity.
  - intros e s Hp.
    destruct (enabled (provided token opts)) as [|c0 l] eqn:E.
    + destruct (start_crashing _ E) as (s' & Hs' & Hsrc & _).
      rewrite Hs' in Hp. injection Hp as <- <-. now split.
    + destruct (start_running (provided token opts)) as (s' & Hs' & _);
        [congruence|]. congruence.
Qed.

(** ** Host labels *)

Lemma pick_fold L ks : forall t,
  fold_left (pick L) ks t
  = {| token_base := if existsb (String.eqb "logentries-token") ks
                     then JS.get L "logentries-token" else token_base t;
       token_logs := if existsb (String.eqb "logentries-token-logs") ks
                     then JS.get L "logentries-token-logs" else token_logs t;
       token_stats := if existsb (String.eqb "logentries-token-stats") ks
                      then JS.get L "logentries-token-stats" else token_stats t;
       token_events := if existsb (String.eqb "logentries-token-events") ks
                       then JS.get L "logentries-token-events"
                       else token_events t |}.
Proof.
  induction ks as [|k ks IH]; intros t; [now destruct t|].
  cbn [fold_left existsb]. rewrite IH. unfold pick.
  destruct (String.eqb_spec k "logentries-token") as [->|H1];
    [simpl; now repeat match goal with
                       | |- context [if ?b then _ else _] => destruct b
                       end|].
  destruct (String.eqb_spec k "logentries-token-logs") as [->|H2];
    [simpl; now repeat match goal with
                       | |- context [if ?b then _ else _] => destruct b
                       end|].
  destruct (String.eqb_spec k "logentries-token-stats") as [->|H3];
    [simpl; now repeat match goal with
                       | |- context [if ?b then _ else _] => destruct b
                       end|].
  destruct (String.eqb_spec k "logentries-token-events") as [->|H4];
    [simpl; now repeat match goal with
                       | |- context [if ?b then _ else _] => destruct b
                       end|].
  rewrite !(proj2 (String.eqb_neq _ k)) by congruence. reflexivity.
Qed.

Lemma mem_own_keys (L : labels) k :
  (if existsb (String.eqb k) (JS.own_keys L) then JS.get L k else None) = JS.get L k.
Proof.
  destruct (existsb (String.eqb k) (JS.own_keys L)) eqn:E; [reflexivity|].
  destruct (JS.get L k) as [v|] eqn:G; [|reflexivity].
  apply own_keys_complete in G.
  assert (existsb (String.eqb k) (JS.own_keys L) = true); [|congruence].
  apply existsb_exists. exists k. split; [exact G|].
  apply String.eqb_refl.
Qed.

(** The loop of [setTokenValues] leaves in its four variables the four
    labels it knows, and nothing of any other label. *)
Lemma picked_labels (L : labels) :
  fold_left (pick L) (JS.own_keys L) nothing_picked
  = {| token_base := JS.get L "logentries-token";
       token_logs := JS.get L "logentries-token-logs";
       token_stats := JS.get L "logentries-token-stats";
       token_events := JS.get L "logentries-token-events" |}.
Proof.
  rewrite pick_fold. unfold nothing_picked.
  cbn [token_base token_logs token_stats token_events].
  now rewrite !mem_own_keys.
Qed.

(** X2. On a reply with status 200 and a body of labels, the tokens of the
    command line are not consulted: a channel is opened exactly when its
    flag is not false and its own label or the common label is there and not
    empty; its token is its own label when that is set, the common label
    otherwise; labels other than the four are ignored.  If no channel is
    opened, what is thrown is the error about an unparseable response, not
    the one about the missing key. *)
Theorem metadata_labels_open_channels (opts : options) (L : labels) :
  let base := JS.get L "logentries-token" in
  let p := onMetadata opts (Response 200 (Some L)) in
  (forall c,
      In c (sources (state_of p))
      <-> flag_on (flag_of opts c) = true
          /\ (token_set (JS.get L (label_of c)) = true \/ token_set base = true))
  /\ (forall c,
        token_of (labelled opts L) c
        = if token_set (JS.get L (label_of c)) then JS.get L (label_of c)
          else if token_set base then base else Some "")
  /\ (forall s, p = Running s -> setTokenValues opts L = Running s)
  /\ (forall e s, p = Crashed e s -> e = Error cannot_parse /\ sources s = []).
Proof.
  intros base p. subst p. unfold onMetadata. simpl Z.eqb. cbv iota.
  unfold setTokenValues.
  assert (Hsrc : forall c,
             In c (sources (state_of (start (labelled opts L))))
             <-> flag_on (flag_of opts c) = true
                 /\ (token_set (JS.get L (label_of c)) = true
                     \/ token_set base = true)).
  { intros c. rewrite start_sources, in_enabled. unfold labelled.
    rewrite picked_labels.
    destruct c; simpl; rewrite token_set_or, orb_true_iff; reflexivity. }
  split; [|split; [|split]].
  - intros c. rewrite <- Hsrc.
    now destruct (start (labelled opts L)).
  - intros c. unfold labelled. rewrite picked_labels. fold base.
    destruct c; simpl; unfold or_token;
      match goal with
      | |- context [token_set (JS.get L ?k)] =>
          destruct (token_set (JS.get L k)) eqn:E
      end; simpl; rewrite ?E; try reflexivity;
      destruct (token_set base) eqn:E'; simpl; rewrite ?E'; reflexivity.
  - intros s. destruct (start (labelled opts L)); congruence.
  - intros e s Hp.
    destruct (enabled (labelled opts L)) as [|c0 l] eqn:E.
    + destruct (start_crashing _ E) as (s' & Hs' & Hs0 & _).
      rewrite Hs' in Hp. injection Hp as <- <-. now split.
    + destruct (start_running (labelled opts L)) as (s' & Hs' & _);
        [congruence|]. rewrite Hs' in Hp. discriminate.
Qed.

(** X3. Whatever the reply, the callback of the metadata request either gets
    [start] running or throws one of two errors: the connection error when
    there is no response or the status is not 200, even if the body holds
    usable labels, and the parse error otherwise.  The configuration error
    of [start] never leaves it. *)
Theorem metadata_errors (opts : options) (r : reply) :
  (forall e s, onMetadata opts r = Crashed e s ->
     (e = Error cannot_connect /\ s = initial
      /\ (r = NoResponse
          \/ exists code body, r = Response code body /\ code <> 200%Z))
     \/ (e = Error cannot_parse /\ exists body, r = Response 200 body))
  /\ (forall s, onMetadata opts r = Running s ->
        exists L, r = Response 200 (Some L) /\ start (labelled opts L) = Running s)
  /\ (forall code body, code <> 200%Z ->
        onMetadata opts (Response code body)
        = Crashed (Error cannot_connect) initial).
Proof.
  split; [|split].
  - intros e s H. destruct r as [|code body]; simpl in H.
    + injection H as <- <-. left. auto.
    + destruct (Z.eqb_spec code 200) as [->|Hne].
      * right. destruct body as [L|].
        -- unfold setTokenValues in H.
           destruct (start (labelled opts L)); [discriminate|].
           injection H as <- <-. eauto.
        -- injection H as <- <-. eauto.
      * injection H as <- <-. left. repeat split. right. eauto.
  - intros s H. destruct r as [|code body]; simpl in H; [discriminate|].
    destruct (Z.eqb_spec code 200) as [->|Hne]; [|discriminate].
    destruct body as [L|]; [|discriminate].
    exists L. split; [reflexivity|]. unfold setTokenValues in H.
    now destruct (start (labelled opts L)).
  - intros code body Hne. simpl.
    now destruct (Z.eqb_spec code 200).
Qed.

Local Open Scope string_scope.

(** ** [parseInt] and the port *)

Lemma digits_stop rest acc : stops rest -> digits 10 rest acc = acc.
Proof. destruct rest as [|c r]; simpl; [reflexivity|]. now intros ->. Qed.

Lemma digits_uint_pos u : forall p rest,
  stops rest ->
  digits 10 (NilEmpty.string_of_uint u ++ rest) (N.pos p)
  = N.pos (Pos.of_uint_acc u p).
Proof.
  induction u; intros p rest Hr;
    cbn [NilEmpty.string_of_uint append digits Pos.of_uint_acc];
    [now apply digits_stop|..];
    match goal with
    | |- context [digit_value 10 ?c] =>
        let v := eval vm_compute in (digit_value 10 c) in
        change (digit_value 10 c) with v
    end; cbv iota; rewrite <- (IHu _ rest Hr); f_equal; lia.
Qed.

Lemma digits_uint u : forall rest,
  stops rest ->
  digits 10 (NilEmpty.string_of_uint u ++ rest) 0 = Pos.of_uint u.
Proof.
  induction u; intros rest Hr;
    cbn [NilEmpty.string_of_uint append digits Pos.of_uint];
    [now apply digits_stop|..];
    match goal with
    | |- context [digit_value 10 ?c] =>
        let v := eval vm_compute in (digit_value 10 c) in
        change (digit_value 10 c) with v
    end; cbv iota;
    [now apply IHu | now apply digits_uint_pos ..].
Qed.

(** A decimal digit is neither white space nor a sign nor the letter x, and
    it is a character of one byte. *)
Lemma digit_is_plain c d :
  digit_value 10 c = Some d ->
  is_space c = false /\ Ascii.eqb c "-" = false /\ Ascii.eqb c "+" = false
  /\ Ascii.eqb c "x" = false /\ Ascii.eqb c "X" = false
  /\ (N_of_ascii c <? 128)%N = true.
Proof.
  destruct c as [[] [] [] [] [] [] [] []]; vm_compute; intros H;
    try discriminate; repeat split.
Qed.

(** White space of more than one byte begins with a byte above 127. *)
Lemma narrow_is_kept a r :
  is_space a = false -> (N_of_ascii a <? 128)%N = true ->
  trim_start (String a r) = String a r.
Proof.
  intros Hs Hn. cbn [trim_start]. rewrite Hs. apply N.ltb_lt in Hn.
  assert (H2 : forall b, is_space2 a b = false).
  { intros b. unfold is_space2.
    destruct (N.eqb_spec (N_of_ascii a) 194); [lia | reflexivity]. }
  assert (H3 : forall b c, is_space3 a b c = false).
  { intros b c. unfold is_space3.
    destruct (N.eqb_spec (N_of_ascii a) 225); [lia|].
    destruct (N.eqb_spec (N_of_ascii a) 226); [lia|].
    destruct (N.eqb_spec (N_of_ascii a) 227); [lia|].
    destruct (N.eqb_spec (N_of_ascii a) 239); [lia|]. reflexivity. }
  destruct r as [|b [|c r]]; rewrite ?H2, ?H3; reflexivity.
Qed.

Lemma to_double_safe n : (n <= 2 ^ 53)%N -> to_double n = Some n.
Proof. intros H. unfold to_double. now rewrite (proj2 (N.leb_le _ _) H). Qed.

Lemma uint_head u rest :
  u <> Decimal.Nil ->
  exists c r d,
    NilEmpty.string_of_uint u ++ rest = String c r
    /\ digit_value 10 c = Some d
    /\ (Ascii.eqb c "0" = true ->
        exists u', u = Decimal.D0 u' /\ r = NilEmpty.string_of_uint u' ++ rest).
Proof.
  destruct u; [congruence|..]; intros _;
    cbn [NilEmpty.string_of_uint append]; do 3 eexists;
    (split; [reflexivity|]); (split; [vm_compute; reflexivity|]);
    vm_compute; try discriminate; eauto.
Qed.

Lemma strip_prefix_plain c r :
  (Ascii.eqb c "0" = true ->
   match r with
   | EmptyString => True
   | String x _ => Ascii.eqb x "x" = false /\ Ascii.eqb x "X" = false
   end) ->
  strip_prefix (String c r) = (10%N, String c r).
Proof.
  intros H. unfold strip_prefix. destruct r as [|x r']; [reflexivity|].
  destruct (Ascii.eqb c "0"); [|reflexivity].
  destruct (H eq_refl) as [-> ->]. reflexivity.
Qed.

Lemma numeral_read p rest :
  stops rest ->
  exists c r,
    NilEmpty.string_of_uint (Pos.to_uint p) ++ rest = String c r
    /\ trim_start (String c r) = String c r
    /\ Ascii.eqb c "-" = false /\ Ascii.eqb c "+" = false
    /\ strip_prefix (String c r) = (10%N, String c r)
    /\ leading_number 10 (String c r) = Some (N.pos p).
Proof.
  intros Hr.
  destruct (uint_head (Pos.to_uint p) rest (DecimalPos.Unsigned.to_uint_nonnil p))
    as (c & r & d & E & Hd & H0).
  destruct (digit_is_plain c d Hd) as (Hs & Hm & Hp & _ & _ & Hn).
  exists c, r. split; [exact E|].
  split; [now apply narrow_is_kept|]. repeat (split; [assumption|]). split.
  - apply strip_prefix_plain. intros Hc. destruct (H0 Hc) as (u' & Hu & ->).
    destruct u' as [| | | | | | | | | |];
      [exfalso; now apply (DecimalPos.Unsigned.to_uint_nonzero p)|..];
      cbn [NilEmpty.string_of_uint append]; split; reflexivity.
  - unfold leading_number. rewrite Hd, <- E, digits_uint by exact Hr.
    now rewrite DecimalPos.Unsigned.of_to.
Qed.

(** [parseInt] reads back the decimal numeral of an integer that is a
    double, and stops at the first character that is not a decimal digit;
    only a numeral 0 followed by x or X is read otherwise, as the prefix of a
    hexadecimal numeral. *)
Lemma parseInt_decimal z rest :
  safe_integer z ->
  stops rest ->
  (z = 0%Z ->
   match rest with
   | EmptyString => True
   | String x _ => Ascii.eqb x "x" = false /\ Ascii.eqb x "X" = false
   end) ->
  parseInt (JS.decimal z ++ rest) = Finite z.
Proof.
  intros Hz Hr Hx. unfold safe_integer in Hz.
  unfold parseInt, JS.decimal. destruct z as [|p|p].
  - change (NilZero.string_of_int (Z.to_int 0)) with "0".
    cbn [append]. rewrite narrow_is_kept by reflexivity.
    change (strip_sign (String "0" rest)) with (false, String "0" rest).
    cbv iota. rewrite strip_prefix_plain by (intros _; now apply Hx).
    unfold leading_number. change (digit_value 10 "0") with (Some 0%N).
    cbv iota. cbn [digits]. change (digit_value 10 "0") with (Some 0%N).
    cbv iota. now rewrite digits_stop.
  - destruct (numeral_read p rest Hr) as (c & r & E & Hs & Hm & Hp & Hpre & Hn).
    assert (Hd : to_double (N.pos p) = Some (N.pos p)).
    { apply to_double_safe. change (2 ^ 53)%N with (Z.to_N (2 ^ 53)). lia. }
    cbn [Z.to_int NilZero.string_of_int]. unfold NilZero.string_of_uint.
    destruct (Pos.to_uint p) eqn:Eu;
      [now elim (DecimalPos.Unsigned.to_uint_nonnil p)|..];
      rewrite E, Hs; unfold strip_sign;
      rewrite Hm, Hp, Hpre, Hn, Hd; reflexivity.
  - destruct (numeral_read p rest Hr) as (c & r & E & Hs & Hm & Hp & Hpre & Hn).
    assert (Hd : to_double (N.pos p) = Some (N.pos p)).
    { apply to_double_safe. change (2 ^ 53)%N with (Z.to_N (2 ^ 53)). lia. }
    cbn [Z.to_int NilZero.string_of_int]. unfold NilZero.string_of_uint.
    destruct (Pos.to_uint p) eqn:Eu;
      [now elim (DecimalPos.Unsigned.to_uint_nonnil p)|..];
      cbn [append]; rewrite narrow_is_kept by reflexivity;
      unfold strip_sign; change (Ascii.eqb "-" "-") with true; cbv iota;
      rewrite E, Hpre, Hn, Hd; reflexivity.
Qed.

Local Open Scope list_scope.




(** X5. With no port given, the port is 443 in secure mode and 80
    otherwise; a port given as the decimal numeral of an integer of
    magnitude up to 2^53, alone or followed by text that does not begin with
    a digit, is that integer (a lone 0 followed by x or X excepted, which
    starts a hexadecimal numeral). *)
Theorem cli_port_settled (a : arguments) :
  (port_text a = None ->
   cli_port a = Finite (if secure (settings a) then 443 else 80)%Z)
  /\ (forall z rest,
         port_text a = Some (JS.decimal z ++ rest)%string ->
         safe_integer z ->
         stops rest ->
         (z = 0%Z ->
          match rest with
          | EmptyString => True
          | String x _ => Ascii.eqb x "x" = false /\ Ascii.eqb x "X" = false
          end) ->
         cli_port a = Finite z).
Proof.
  unfold cli_port. split.
  - now intros ->.
  - intros z rest -> Hz Hr Hx. now apply parseInt_decimal.
Qed.

(** X6. A port text that is empty, or whose first character after leading
    white space (that of Unicode, line terminators included) is neither a
    sign nor a decimal digit, makes [cli] print that the port must be a
    number and exit with status 1; [generateTokens] is not called. *)
Theorem cli_rejects_port (a : arguments) (text : string) :
  help a = false -> port_text a = Some text ->
  match trim_start text with
  | EmptyString => True
  | String c _ =>
      Ascii.eqb c "-" = false /\ Ascii.eqb c "+" = false
      /\ digit_value 10 c = None
  end ->
  cli a = Exited ["port must be a number"] 1.
Proof.
  intros Hh Hp Ht. unfold cli, cli_port. rewrite Hh, Hp.
  assert (E : parseInt text = NaN); [|now rewrite E].
  unfold parseInt. destruct (trim_start text) as [|c r]; [reflexivity|].
  destruct Ht as (Hm & Hpl & Hd). unfold strip_sign. rewrite Hm, Hpl.
  assert (H0 : Ascii.eqb c "0" = false).
  { destruct (Ascii.eqb_spec c "0") as [->|]; [|reflexivity].
    vm_compute in Hd. discriminate. }
  unfold strip_prefix. destruct r as [|x r']; rewrite ?H0; simpl andb;
    cbv iota; unfold leading_number; now rewrite Hd.
Qed.

Local Open Scope string_scope.
(** ** The enrichment entries of the command line *)

Lemma plain_tail c s : plain (String c s) -> c <> "="%char /\ plain s.
Proof.
  unfold plain. simpl. intros H. split.
  - intros ->. apply H. now left.
  - intros Hin. apply H. now right.
Qed.

Lemma split_plain s : plain s -> split "=" s = [s].
Proof.
  induction s as [|c s IH]; intros H; simpl; [reflexivity|].
  destruct (plain_tail c s H) as [Hc Hs].
  destruct (Ascii.eqb_spec c "="); [contradiction|]. now rewrite IH.
Qed.

Lemma split_at_sep k t :
  plain k -> split "=" (k ++ String "=" t) = k :: split "=" t.
Proof.
  induction k as [|c k IH]; intros H; simpl; [reflexivity|].
  destruct (plain_tail c k H) as [Hc Hk].
  destruct (Ascii.eqb_spec c "="); [contradiction|]. now rewrite IH.
Qed.

Lemma split_cons sep s : exists first others, split sep s = first :: others.
Proof.
  induction s as [|c s [f [o E]]]; simpl; [eauto|].
  destruct (Ascii.eqb c sep); [eauto|]. rewrite E. eauto.
Qed.

(** The key and the value that [add_entry] reads in [key=value], whether or
    not more follows a second equals sign. *)
Lemma entry_key_value k v tail :
  plain k -> plain v -> tail = "" \/ (exists t, tail = String "=" t) ->
  nth 0 (split "=" (k ++ "=" ++ v ++ tail)) "" = k
  /\ nth_error (split "=" (k ++ "=" ++ v ++ tail)) 1 = Some v.
Proof.
  intros Hk Hv Ht. change ("=" ++ v ++ tail) with (String "=" (v ++ tail)).
  rewrite split_at_sep by exact Hk.
  destruct Ht as [->|[t ->]].
  - assert (E : v ++ "" = v) by (clear; induction v; simpl; congruence).
    rewrite E, split_plain by exact Hv. now split.
  - rewrite split_at_sep by exact Hv. now split.
Qed.

Lemma add_entry_key_value acc k v tail :
  plain k -> plain v -> k <> "__proto__" ->
  tail = "" \/ (exists t, tail = String "=" t) ->
  add_entry acc (k ++ "=" ++ v ++ tail) = JS.set acc k (JS.Str v).
Proof.
  intros Hk Hv Hp Ht. unfold add_entry. cbv zeta.
  destruct (entry_key_value k v tail Hk Hv Ht) as [-> ->].
  now destruct (String.eqb_spec k "__proto__").
Qed.

Lemma add_entry_bare acc k :
  plain k -> k <> "__proto__" -> add_entry acc k = JS.set acc k JS.Undefined.
Proof.
  intros Hk Hp. unfold add_entry. cbv zeta. rewrite split_plain by exact Hk.
  cbn [nth nth_error]. now destruct (String.eqb_spec k "__proto__").
Qed.

Lemma add_entry_proto acc v : add_entry acc ("__proto__=" ++ v) = acc.
Proof.
  unfold add_entry. cbv zeta.
  change ("__proto__=" ++ v) with ("__proto__" ++ String "=" v).
  rewrite split_at_sep; [reflexivity|].
  unfold plain. simpl. intuition discriminate.
Qed.

(** X7. In the list of enrichment entries, the last entry [key=value] of a
    key gives the key its value, whatever earlier entries of the key said;
    if the entry goes on after a second equals sign, the value stops before
    it.  The other keys keep what the earlier entries gave them. *)
Theorem add_last_entry_wins (l : list string) (k v tail : string) :
  plain k -> plain v -> k <> "__proto__" ->
  tail = "" \/ (exists t, tail = String "=" t) ->
  let parsed := fold_left add_entry (l ++ [k ++ "=" ++ v ++ tail]) [] in
  JS.get parsed k = Some (JS.Str v)
  /\ forall k', k' <> k -> JS.get parsed k' = JS.get (fold_left add_entry l []) k'.
Proof.
  intros Hk Hv Hp Ht parsed. subst parsed. rewrite fold_left_app.
  cbn [fold_left]. rewrite add_entry_key_value by assumption. split.
  - apply get_set_same.
  - intros k' Hne. apply get_set_other. congruence.
Qed.

(** X8. An entry with no equals sign gives its key the value [undefined]:
    the key is set and holds no text, so that, merged by [addAll] (which can
    call [hasOwnProperty] as long as no entry has overridden it), it makes
    the field of every event [undefined].  An entry for the key [__proto__]
    changes nothing. *)
Theorem add_bare_key (l : list string) (k : string) :
  plain k -> k <> "__proto__" ->
  JS.get (fold_left add_entry (l ++ [k]) []) k = Some JS.Undefined
  /\ (JS.get (fold_left add_entry (l ++ [k]) []) "hasOwnProperty" = None ->
      forall obj,
        exists e,
          addAll (Some (fold_left add_entry (l ++ [k]) [])) (raw obj) = Ok e
          /\ JS.get (fields e) k = Some JS.Undefined
          /\ read e k = JS.Undefined)
  /\ (forall v,
        fold_left add_entry (l ++ ["__proto__=" ++ v]) []
        = fold_left add_entry l []).
Proof.
  intros Hk Hp.
  assert (E : JS.get (fold_left add_entry (l ++ [k]) []) k = Some JS.Undefined).
  { rewrite fold_left_app. cbn [fold_left].
    rewrite add_entry_bare by assumption. apply get_set_same. }
  split; [exact E|]. split.
  - intros Hh obj. pose proof (addAll_merge _ (raw obj) Hh) as He.
    eexists. split; [exact He|].
    pose proof (addAll_writes _ (raw obj) _ k _ He Hp E) as Hg.
    split; [exact Hg | now apply read_own].
  - intros v. rewrite fold_left_app. cbn [fold_left]. apply add_entry_proto.
Qed.

(** ** The text of a record *)

Lemma append_assoc (a b c : string) : (a ++ b) ++ c = a ++ b ++ c.
Proof. induction a as [|x a IH]; simpl; [reflexivity|]. now rewrite IH. Qed.

Lemma no_control_app a b : no_control (a ++ b) = no_control a && no_control b.
Proof.
  induction a as [|c a IH]; simpl; [reflexivity|].
  now rewrite IH, andb_assoc.
Qed.

Lemma wrapped_clean l mid r :
  no_control l = true -> no_control r = true -> no_control mid = true ->
  no_control (l ++ mid ++ r) = true.
Proof. intros Hl Hr Hm. now rewrite !no_control_app, Hl, Hm, Hr. Qed.

Lemma escape_clean c : no_control (JS.escape c) = true.
Proof. destruct c as [[] [] [] [] [] [] [] []]; reflexivity. Qed.

Lemma quote_clean s : no_control (JS.quote s) = true.
Proof.
  unfold JS.quote. rewrite !no_control_app.
  assert (H : no_control (JS.escape_all s) = true).
  { induction s as [|c s IH]; simpl; [reflexivity|].
    now rewrite no_control_app, escape_clean, IH. }
  now rewrite H.
Qed.

Lemma uint_clean u : no_control (NilEmpty.string_of_uint u) = true.
Proof. induction u; simpl; auto. Qed.

Lemma decimal_clean z : no_control (JS.decimal z) = true.
Proof.
  unfold JS.decimal. destruct z as [|p|p]; simpl; [reflexivity|..];
    unfold NilZero.string_of_uint; destruct (Pos.to_uint p) eqn:E;
    try reflexivity; rewrite <- E; apply uint_clean.
Qed.

Lemma join_clean sep l :
  no_control sep = true -> Forall (fun s => no_control s = true) l ->
  no_control (JS.join sep l) = true.
Proof.
  intros Hs. induction 1 as [|s l H Hl IH]; simpl; [reflexivity|].
  destruct l as [|s' l']; [exact H|].
  now rewrite !no_control_app, H, Hs, IH.
Qed.

Lemma in_index_props {A : Type} (ms : list (string * A)) x :
  In x (JS.index_props ms) -> In (snd x) ms.
Proof.
  induction ms as [|[k v] ms IH]; simpl; [tauto|].
  destruct (JS.array_index k) as [n|].
  - rewrite in_insert_by_index. intros [->|H]; [now left|]. right. now apply IH.
  - intros H. right. now apply IH.
Qed.

Lemma in_named_props {A : Type} (ms : list (string * A)) x :
  In x (JS.named_props ms) -> In x ms.
Proof.
  induction ms as [|[k v] ms IH]; simpl; [tauto|].
  destruct (JS.array_index k); simpl; intuition.
Qed.

(** The enumeration visits nothing but the properties. *)
Lemma in_own_props {A : Type} (ms : list (string * A)) x :
  In x (JS.own_props ms) -> In x ms.
Proof.
  unfold JS.own_props. rewrite in_app_iff, in_map_iff.
  intros [[y [<- H]]|H]; [now apply in_index_props | now apply in_named_props].
Qed.

Lemma members_clean ms :
  (forall k s, In (k, Some s) ms -> no_control s = true) ->
  Forall (fun s => no_control s = true) (JS.members ms).
Proof.
  induction ms as [|[k [s|]] ms IH]; intros H; cbn [JS.members].
  - constructor.
  - constructor.
    + apply wrapped_clean; [apply quote_clean | apply (H k s); now left
                           | reflexivity].
    + apply IH. intros k' s' Hin. apply (H k' s'). now right.
  - apply IH. intros k' s' Hin. apply (H k' s'). now right.
Qed.

Section ValueInduction.

Variable P : JS.value -> Prop.
Hypothesis HUndefined : P JS.Undefined.
Hypothesis HNull : P JS.Null.
Hypothesis HBool : forall b, P (JS.Bool b).
Hypothesis HNum : forall z, P (JS.Num z).
Hypothesis HStr : forall s, P (JS.Str s).
Hypothesis HArr : forall xs, Forall P xs -> P (JS.Arr xs).
Hypothesis HObj : forall ps, Forall (fun kv => P (snd kv)) ps -> P (JS.Obj ps).

Fixpoint value_induction (v : JS.value) : P v :=
  match v with
  | JS.Undefined => HUndefined
  | JS.Null => HNull
  | JS.Bool b => HBool b
  | JS.Num z => HNum z
  | JS.Str s => HStr s
  | JS.Arr xs =>
      HArr xs ((fix all (l : list JS.value) : Forall P l :=
                  match l with
                  | [] => Forall_nil P
                  | x :: rest => Forall_cons x (value_induction x) (all rest)
                  end) xs)
  | JS.Obj ps =>
      HObj ps ((fix all (l : list (string * JS.value))
                  : Forall (fun kv => P (snd kv)) l :=
                  match l with
                  | [] => Forall_nil _
                  | (k, x) :: rest =>
                      Forall_cons (k, x) (value_induction x) (all rest)
                  end) ps)
  end.

End ValueInduction.

Lemma object_clean ps :
  Forall (fun kv => forall s, JS.serialize (snd kv) = Some s -> no_control s = true) ps ->
  no_control
    ("{" ++ JS.join ","
       (JS.members (JS.own_props
                      (map (fun kv => (fst kv, JS.serialize (snd kv))) ps)))
     ++ "}") = true.
Proof.
  intros H. apply (wrapped_clean "{" _ "}"); [reflexivity..|].
  apply join_clean; [reflexivity|]. apply members_clean.
  intros k s Hin. apply in_own_props, in_map_iff in Hin.
  destruct Hin as [[k' v] [E Hin]]. simpl in E. injection E as _ E.
  rewrite Forall_forall in H. exact (H (k', v) Hin s E).
Qed.

(** The JSON text of a value holds no control character. *)
Lemma serialize_clean v : forall s, JS.serialize v = Some s -> no_control s = true.
Proof.
  induction v using value_induction; intros s' E; cbn [JS.serialize] in E;
    try discriminate; try (injection E as <-; reflexivity).
  - destruct b; injection E as <-; reflexivity.
  - injection E as <-. apply decimal_clean.
  - injection E as <-. apply quote_clean.
  - injection E as <-. apply (wrapped_clean "[" _ "]"); [reflexivity..|].
    apply join_clean; [reflexivity|].
    apply Forall_map. apply Forall_impl with (2 := H).
    intros x Hx. destruct (JS.serialize x); [now apply Hx | reflexivity].
  - injection E as <-. now apply object_clean.
Qed.

Lemma stringify_clean ps : no_control (JS.stringify ps) = true.
Proof.
  apply object_clean. apply Forall_forall. intros kv _ s. apply serialize_clean.
Qed.

(** X9. A record is one line: the serialized event holds no character below
    32, hence no line feed and no carriage return, whatever text the event
    carries; so when the token holds none either, the record is a line with
    no control character followed by the one line feed that ends it. *)
Theorem record_is_one_line {engine : RegExpEngine}
  (opts : options) (obj : JS.props) (chunks : list string) :
  filter opts obj = Ok chunks -> chunks <> [] ->
  exists e token body,
    addAll (add opts) (raw obj) = Ok e
    /\ chunks = [token; " "; body; LF]
    /\ body = JS.stringify (fields e)
    /\ no_control body = true
    /\ (no_control token = true ->
        exists line,
          String.concat "" chunks = line ++ LF /\ no_control line = true).
Proof.
  intros Hf Hne. unfold filter in Hf.
  destruct (addAll (add opts) (raw obj)) as [e|]; simpl in Hf; [|discriminate].
  unfold route in Hf.
  destruct (passes_regex opts e) as [b|]; simpl in Hf; [|discriminate].
  destruct (select_token opts e) as [t|]; [|congruence].
  destruct (negb (t =? "") && b); [|congruence].
  injection Hf as <-.
  exists e, t, (JS.stringify (fields e)).
  split; [reflexivity|]. split; [reflexivity|]. split; [reflexivity|].
  split; [apply stringify_clean|].
  intros Ht. exists (t ++ " " ++ JS.stringify (fields e)).
  split.
  - cbn [String.concat]. cbn [append]. now rewrite !append_assoc.
  - now rewrite !no_control_app, Ht, stringify_clean.
Qed.

Local Open Scope list_scope.

(** ** More on [addAll] *)

Lemma set_same {A : Type} (ps : list (string * A)) k v :
  JS.get ps k = Some v -> JS.set ps k v = ps.
Proof.
  induction ps as [|[k' v'] rest IH]; simpl; [discriminate|].
  destruct (k' =? k) eqn:E.
  - now intros [= ->].
  - intros H. now rewrite IH.
Qed.

Lemma set_keys {A : Type} (ps : list (string * A)) k v :
  map fst (JS.set ps k v)
  = match JS.get ps k with
    | Some _ => map fst ps
    | None => map fst ps ++ [k]
    end.
Proof.
  induction ps as [|[k' v'] rest IH]; simpl; [reflexivity|].
  destruct (k' =? k) eqn:E; simpl; [reflexivity|].
  rewrite IH. now destruct (JS.get rest k).
Qed.

(** An assignment under a key other than [__proto__] is an assignment to
    the own properties. *)
Lemma assign_set obj key v :
  key <> "__proto__" ->
  assign obj key v = {| fields := JS.set (fields obj) key v; parent := parent obj |}.
Proof.
  intros Hne. unfold assign. now rewrite (proj2 (String.eqb_neq _ _) Hne).
Qed.

Lemma merge_fixed proto keys : forall e,
  JS.get proto "__proto__" = None ->
  (forall k v, JS.get proto k = Some v -> JS.get (fields e) k = Some v) ->
  fold_left (merge proto) keys e = e.
Proof.
  induction keys as [|k keys IH]; intros e Hp H; simpl; [reflexivity|].
  assert (E : merge proto e k = e).
  { unfold merge, has_own, JS.prop.
    destruct (JS.get proto k) as [v|] eqn:G; [|reflexivity].
    rewrite assign_set by (intros ->; congruence).
    rewrite (set_same _ _ _ (H k v G)). now destruct e. }
  rewrite E. now apply IH.
Qed.

Lemma merge_keys proto keys : forall e,
  JS.get proto "__proto__" = None ->
  exists extra,
    map fst (fields (fold_left (merge proto) keys e)) = map fst (fields e) ++ extra
    /\ forall k, In k extra -> JS.get (fields e) k = None /\ JS.get proto k <> None.
Proof.
  induction keys as [|k keys IH]; intros e Hp; simpl.
  - exists []. split; [now rewrite app_nil_r|]. intros k [].
  - destruct (IH (merge proto e k) Hp) as (extra & E & Hx).
    destruct (JS.get proto k) as [v|] eqn:G.
    2:{ assert (Em : merge proto e k = e)
          by (unfold merge, has_own; now rewrite G).
        rewrite Em in E, Hx |- *. exists extra. now split. }
    assert (Em : merge proto e k
                 = {| fields := JS.set (fields e) k v; parent := parent e |}).
    { unfold merge, has_own, JS.prop. rewrite G. apply assign_set.
      intros ->. congruence. }
    rewrite Em in E, Hx |- *. simpl in E, Hx.
    rewrite set_keys in E. destruct (JS.get (fields e) k) as [v0|] eqn:Ge.
    + exists extra. split; [exact E|]. intros k' Hin.
      destruct (Hx k' Hin) as [Hn Hq]. split; [|exact Hq].
      destruct (String.eqb_spec k k') as [->|Hne].
      * rewrite get_set_same in Hn. discriminate.
      * now rewrite get_set_other in Hn.
    + exists (k :: extra). split; [now rewrite E, <- app_assoc|].
      intros k' [<-|Hin]; [split; congruence|].
      destruct (Hx k' Hin) as [Hn Hq]. split; [|exact Hq].
      destruct (String.eqb_spec k k') as [->|Hne].
      * rewrite get_set_same in Hn. discriminate.
      * now rewrite get_set_other in Hn.
Qed.

(** With no array index among the keys, the properties are enumerated in
    the order of their insertion. *)
Lemma own_keys_inserted {A : Type} (ps : list (string * A)) :
  (forall k, In k (map fst ps) -> JS.array_index k = None) ->
  JS.own_keys ps = map fst ps.
Proof.
  intros H. unfold JS.own_keys, JS.own_props.
  assert (Hi : JS.index_props ps = [] /\ JS.named_props ps = ps).
  { induction ps as [|[k v] rest IH]; simpl; [now split|].
    rewrite (H k) by (simpl; auto).
    destruct IH as [-> ->]; [|now split].
    intros k' Hk'. apply H. simpl. auto. }
  destruct Hi as [-> ->]. reflexivity.
Qed.

(** X10. For an enrichment set with neither hasOwnProperty nor __proto__
    among its keys, merging it twice is merging it once; and the merge keeps
    the fields of the event where they are: in the order of insertion, the
    keys of the merged event are those of the raw event followed by the
    enrichment keys the raw event did not have.  When none of those keys is
    an array index, that is also the order in which the merged event is
    enumerated and serialized. *)
Theorem addAll_idempotent_in_place (proto : JS.props) (obj : JS.props) :
  JS.get proto "hasOwnProperty" = None ->
  JS.get proto "__proto__" = None ->
  exists e extra,
    addAll (Some proto) (raw obj) = Ok e
    /\ addAll (Some proto) e = Ok e
    /\ parent e = None
    /\ map fst (fields e) = map fst obj ++ extra
    /\ (forall k, In k extra -> JS.get obj k = None /\ JS.get proto k <> None)
    /\ ((forall k, In k (map fst obj ++ extra) -> JS.array_index k = None) ->
        JS.own_keys (fields e) = map fst obj ++ extra).
Proof.
  intros Hh Hp.
  pose proof (addAll_merge proto (raw obj) Hh) as He.
  set (e := fold_left (merge proto) (JS.own_keys proto) (raw obj)) in *.
  destruct (merge_keys proto (JS.own_keys proto) (raw obj) Hp)
    as (extra & E & Hx).
  fold e in E. simpl in E, Hx. clearbody e.
  exists e, extra. split; [exact He|]. split; [|split; [|split; [|split]]].
  - rewrite (addAll_merge proto e Hh). f_equal.
    apply merge_fixed; [exact Hp|]. intros k v Hk.
    apply (addAll_writes proto (raw obj) e k v He); [|exact Hk].
    intros ->. congruence.
  - exact (addAll_parent proto (raw obj) e He Hp).
  - exact E.
  - exact Hx.
  - intros Hn. rewrite <- E. apply own_keys_inserted. now rewrite E.
Qed.

(** ** More on the event loop *)

Section MoreLoop.

Context {engine : RegExpEngine}.

Lemma check_outcome_match p t acc :
  (exists b, must_match p t acc = Ok b /\ (p = "" \/ RegExp p <> None))
  \/ (must_match p t acc = Throw (SyntaxError p) /\ p <> "" /\ RegExp p = None).
Proof.
  unfold must_match, new_RegExp.
  destruct (String.eqb_spec p "") as [->|Hne]; [left; eauto|].
  destruct (RegExp p) eqn:E; simpl; [left|right]; eauto.
  eexists. split; [reflexivity|]. right. discriminate.
Qed.

Lemma check_outcome_skip p t acc :
  (exists b, must_not_match p t acc = Ok b /\ (p = "" \/ RegExp p <> None))
  \/ (must_not_match p t acc = Throw (SyntaxError p)
      /\ p <> "" /\ RegExp p = None).
Proof.
  unfold must_not_match, new_RegExp.
  destruct (String.eqb_spec p "") as [->|Hne]; [left; eauto|].
  destruct (RegExp p) eqn:E; simpl; [left|right]; eauto.
  eexists. split; [reflexivity|]. right. discriminate.
Qed.

(** Whatever the event, the checks throw the error of a pattern in use
    that is not a regular expression. *)
Lemma bad_pattern_route (opts : options) (p : string) (e : object) :
  In p [matchByName opts; matchByImage opts; skipByName opts; skipByImage opts] ->
  p <> "" -> RegExp p = None ->
  exists q,
    In q [matchByName opts; matchByImage opts; skipByName opts; skipByImage opts]
    /\ q <> "" /\ RegExp q = None
    /\ route opts e = Throw (SyntaxError q).
Proof.
  intros Hin Hne Hbad. unfold route, passes_regex.
  set (name := JS.to_string (read e "name")).
  set (image := JS.to_string (read e "image")).
  destruct (check_outcome_match (matchByName opts) name true)
    as [(b1 & -> & V1)|(-> & N1 & B1)];
    [|exists (matchByName opts); simpl; auto 10].
  simpl bind.
  destruct (check_outcome_match (matchByImage opts) image b1)
    as [(b2 & -> & V2)|(-> & N2 & B2)];
    [|exists (matchByImage opts); simpl; auto 10].
  simpl bind.
  destruct (check_outcome_skip (skipByName opts) name b2)
    as [(b3 & -> & V3)|(-> & N3 & B3)];
    [|exists (skipByName opts); simpl; auto 10].
  simpl bind.
  destruct (check_outcome_skip (skipByImage opts) image b3)
    as [(b4 & -> & V4)|(-> & N4 & B4)];
    [|exists (skipByImage opts); simpl; auto 10].
  exfalso. simpl in Hin.
  destruct Hin as [<-|[<-|[<-|[<-|[]]]]];
    [destruct V1|destruct V2|destruct V3|destruct V4]; contradiction.
Qed.

(** X11. A pattern in use that is not a regular expression is fatal at the
    first event: for every event the transform throws, the SyntaxError of
    such a pattern when the merge of the enrichment set went through and the
    error of the merge otherwise; and the callback that delivers an event of
    a source that is piped into the filter ends the process with that
    error, nothing written. *)
Theorem bad_pattern_is_fatal_at_first_event (opts : options) (p : string) :
  In p [matchByName opts; matchByImage opts; skipByName opts; skipByImage opts] ->
  p <> "" -> RegExp p = None ->
  forall obj,
    (forall e,
        addAll (add opts) (raw obj) = Ok e ->
        exists q,
          In q [matchByName opts; matchByImage opts; skipByName opts;
                skipByImage opts]
          /\ q <> "" /\ RegExp q = None
          /\ filter opts obj = Throw (SyntaxError q))
    /\ exists x,
         filter opts obj = Throw x
         /\ forall s c, In c (feeding s) ->
              handle opts s (Data c obj) = Crashed x s.
Proof.
  intros Hin Hne Hbad obj.
  assert (H1 : forall e,
             addAll (add opts) (raw obj) = Ok e ->
             exists q,
               In q [matchByName opts; matchByImage opts; skipByName opts;
                     skipByImage opts]
               /\ q <> "" /\ RegExp q = None
               /\ filter opts obj = Throw (SyntaxError q)).
  { intros e He. rewrite (filter_route opts obj e He).
    exact (bad_pattern_route opts p e Hin Hne Hbad). }
  split; [exact H1|].
  assert (H2 : exists x, filter opts obj = Throw x).
  { destruct (addAll (add opts) (raw obj)) as [e|x] eqn:Ea.
    - destruct (H1 e eq_refl) as (q & _ & _ & _ & Hq). eauto.
    - exists x. now apply filter_merge_throws. }
  destruct H2 as [x Hx]. exists x. split; [exact Hx|].
  intros s c Hc. simpl. rewrite Hx.
  apply has_channel_In in Hc. now rewrite Hc.
Qed.

Lemma plain_start opts s0 :
  secure opts = false -> start opts = Running s0 -> handshakes s0 = [].
Proof.
  intros Hsec. unfold start.
  destruct (flag_on (logs opts) && token_set (logstoken opts)),
    (flag_on (stats opts) && token_set (statstoken opts)),
    (flag_on (dockerEvents opts) && token_set (eventstoken opts));
    simpl; try discriminate;
    unfold pipe, connect; simpl; rewrite Hsec; simpl;
    intros H; injection H as <-; reflexivity.
Qed.

Lemma plain_step opts s ev s' :
  secure opts = false -> handshakes s = [] ->
  handle opts s ev = Running s' -> handshakes s' = [].
Proof.
  intros Hsec Hh. destruct ev as [c obj|c|c|o|o a]; simpl.
  - destruct (has_channel c (feeding s)); [|now intros [= <-]].
    destruct (filter opts obj) as [chunks|]; [|discriminate].
    intros [= <-].
    destruct (write_all_fields chunks s)
      as (_ & _ & _ & _ & _ & _ & _ & -> & _).
    exact Hh.
  - destruct (has_channel c (feeding s)); now intros [= <-].
  - destruct (has_channel c (sources s)); [|now intros [= <-]].
    unfold streamClosed. simpl.
    destruct (streamsOpened s - 1 <=? 0)%Z; [|now intros [= <-]].
    destruct (noRestart s); simpl; destruct (out s); try discriminate;
      now intros [= <-].
  - destruct (has_stream o (watched s)); [|now intros [= <-]].
    intros [= <-]. unfold pipe, connect. simpl.
    destruct (out s); simpl; rewrite Hsec; simpl; exact Hh.
  - rewrite Hh. simpl. now intros [= <-].
Qed.

(** X12. Without secure mode no transport carries the handshake callback, so
    no notification of a handshake, authorized or not, has any effect: the
    trust error cannot be thrown. *)
Theorem plain_mode_has_no_handshake (opts : options) (s0 : state)
  (evs : list event) (s : state) :
  secure opts = false ->
  start opts = Running s0 ->
  run opts (Running s0) evs = Running s ->
  handshakes s = []
  /\ forall o authorized, handle opts s (SecureConnect o authorized) = Running s.
Proof.
  intros Hsec Hstart Hrun.
  assert (Hh : handshakes s = []).
  { revert s Hrun. induction evs as [|ev evs IH] using rev_ind; intros s Hrun.
    - simpl in Hrun. injection Hrun as <-. now apply (plain_start opts).
    - destruct (run_last _ _ _ _ _ Hrun) as (s1 & H1 & H2).
      exact (plain_step opts s1 ev s Hsec (IH s1 H1) H2). }
  split; [exact Hh|]. intros o a. simpl. now rewrite Hh.
Qed.


(** X14. The count of open sources stays between 0 and the count at the
    start, which is at most 3: it never goes below zero. *)
Theorem open_count_bounds (opts : options) (s0 : state)
  (evs : list event) (s : state) :
  start opts = Running s0 ->
  run opts (Running s0) evs = Running s ->
  (0 <= streamsOpened s <= streamsOpened s0)%Z /\ (streamsOpened s0 <= 3)%Z.
Proof.
  intros Hstart Hrun.
  pose proof (start_invariant opts s0 Hstart) as I0.
  pose proof (reached_invariant opts s0 Hstart evs s Hrun) as I.
  rewrite (inv_count _ _ _ I), (inv_sources _ _ _ I).
  rewrite (inv_count _ _ _ I0), (inv_sources _ _ _ I0), still_open_start.
  assert (H1 : (length (still_open opts evs) <= length (enabled opts))%nat).
  { unfold still_open. apply filter_length_le. }
  assert (H2 : (length (enabled opts) <= 3)%nat).
  { unfold enabled.
    destruct (flag_on (logs opts) && token_set (logstoken opts)),
      (flag_on (stats opts) && token_set (statstoken opts)),
      (flag_on (dockerEvents opts) && token_set (eventstoken opts));
      simpl; lia. }
  lia.
Qed.


(** X16. When the handshake callback of a secure transport does run with
    the stream unauthorized, it throws: the process is over with that
    error, nothing further is done to the outside, and no later notification
    is acted on, so that there is no reconnect.  In secure mode the current
    transport carries the callback until a handshake authorized it. *)
Theorem unauthorized_callback_is_fatal (opts : options) (s0 : state)
  (evs : list event) (s : state) :
  secure opts = true ->
  start opts = Running s0 ->
  run opts (Running s0) evs = Running s ->
  (exists o, out s = Some o
             /\ (In o (handshakes s) \/ In (SecureConnect o true) evs))
  /\ forall o, In o (handshakes s) ->
       exists s',
         handle opts s (SecureConnect o false)
         = Crashed (Error "secure connection not authorized") s'
         /\ log s' = log s
         /\ forall evs',
              run opts (handle opts s (SecureConnect o false)) evs'
              = Crashed (Error "secure connection not authorized") s'.
Proof.
  intros Hsec Hstart Hrun.
  pose proof (reached_invariant opts s0 Hstart evs s Hrun) as I.
  split.
  - destruct (inv_out _ _ _ I) as [o [Hout _]]. exists o.
    split; [exact Hout|]. now apply (inv_secure _ _ _ I).
  - intros o Hin. apply has_stream_In in Hin. simpl. rewrite Hin. simpl.
    eexists. split; [reflexivity|]. split; [reflexivity|].
    intros evs'. apply run_crashed.
Qed.

End MoreLoop.

(* ========================================================================= *)
(** * Further worked instances *)
(* ========================================================================= *)

Section MoreInstances.

#[local] Existing Instance Simple.engine.

Local Open Scope string_scope.

Ltac plain_text := unfold plain; simpl; intuition discriminate.

(** The common token T with a logs token L: logs is opened under L, stats
    under T. *)
Lemma provided_tokens_witness :
  exists p,
    generateTokens (Some "T") Cmd.logs_and_common
    = Started ["Using provided tokens ... "] p
    /\ In Logs (sources (state_of p)) /\ In Stats (sources (state_of p))
    /\ token_of (provided (Some "T") Cmd.logs_and_common) Logs = Some "L"
    /\ token_of (provided (Some "T") Cmd.logs_and_common) Stats = Some "T".
Proof.
  destruct (provided_tokens_open_channels (Some "T") Cmd.logs_and_common eq_refl)
    as (p & Hg & Hs & Ht & _).
  exists p. split; [exact Hg|].
  split; [apply Hs; split; [reflexivity | left; reflexivity]|].
  split; [apply Hs; split; [reflexivity | right; reflexivity]|].
  split; [exact (Ht Logs) | exact (Ht Stats)].
Defined.

(** Labels with a common token and a stats token: all three channels are
    opened, stats under its own label. *)
Lemma metadata_labels_witness :
  In Logs (sources (state_of (onMetadata Ex.defaults
                                (Response 200 (Some Cmd.host_labels)))))
  /\ token_of (labelled Ex.defaults Cmd.host_labels) Stats = Some "S"
  /\ token_of (labelled Ex.defaults Cmd.host_labels) Logs = Some "B".
Proof.
  destruct (metadata_labels_open_channels Ex.defaults Cmd.host_labels)
    as (Hs & Ht & _).
  split; [apply Hs; split; [reflexivity | right; reflexivity]|].
  split; [exact (Ht Stats) | exact (Ht Logs)].
Defined.


(** The port texts 8080 and 8080/tcp both give port 8080. *)
Lemma cli_port_witness :
  safe_integer 8080
  /\ parseInt "8080" = Finite 8080%Z
  /\ cli_port {| help := false; token := None; port_text := Some "8080/tcp";
                 adds := AddList []; settings := Ex.defaults |}
     = Finite 8080%Z.
Proof.
  assert (S : safe_integer 8080) by (unfold safe_integer; simpl; lia).
  split; [exact S|]. split; [reflexivity|].
  destruct (cli_port_settled
              {| help := false; token := None; port_text := Some "8080/tcp";
                 adds := AddList []; settings := Ex.defaults |}) as [_ H].
  apply (H 8080%Z "/tcp"); [reflexivity | exact S | reflexivity | discriminate].
Defined.

(** The port text http. *)
Lemma cli_rejects_port_witness :
  cli Cmd.bad_port = Exited ["port must be a number"] 1.
Proof.
  apply (cli_rejects_port Cmd.bad_port "http"); [reflexivity | reflexivity |].
  vm_compute. auto.
Defined.

(** [env=prod=eu] after [host=web]: env is prod, host is still web. *)
Lemma add_last_entry_witness :
  JS.get (fold_left add_entry ["host=web"; "env=prod=eu"] []) "env"
  = Some (JS.Str "prod")
  /\ JS.get (fold_left add_entry ["host=web"; "env=prod=eu"] []) "host"
     = JS.get (fold_left add_entry ["host=web"] []) "host".
Proof.
  destruct (add_last_entry_wins ["host=web"] "env" "prod" "=eu")
    as [H H']; [plain_text | plain_text | discriminate | right; eauto |].
  split; [exact H | apply H'; discriminate].
Defined.

(** The entry [bare]. *)
Lemma add_bare_key_witness :
  JS.get (fold_left add_entry ["host=web"; "bare"] []) "bare"
  = Some JS.Undefined.
Proof.
  destruct (add_bare_key ["host=web"] "bare") as [H _];
    [plain_text | discriminate | exact H].
Defined.

(** A line that holds a line feed and a tab: the record has one line feed,
    its last character. *)
Lemma record_is_one_line_witness :
  filter Ex.lt1_opts Cmd.two_lines
  = Ok ["LT1"; " "; JS.stringify Cmd.two_lines; LF]
  /\ no_control (JS.stringify Cmd.two_lines) = true
  /\ exists line,
       String.concat "" ["LT1"; " "; JS.stringify Cmd.two_lines; LF]
       = line ++ LF
       /\ no_control line = true.
Proof.
  assert (Hf : filter Ex.lt1_opts Cmd.two_lines
               = Ok ["LT1"; " "; JS.stringify Cmd.two_lines; LF])
    by (vm_compute; reflexivity).
  destruct (record_is_one_line Ex.lt1_opts Cmd.two_lines _ Hf)
    as (e & token & body & _ & E & Eb & Hb & Hl); [discriminate|].
  injection E as <- <-.
  split; [exact Hf|]. split; [exact Hb|]. apply Hl. reflexivity.
Defined.

(** Enrichment host=h1 on an event that has a host already: merged once or
    twice, the event is the same, and no key is added. *)
Lemma addAll_idempotent_witness :
  exists e,
    addAll (Some [("host", JS.Str "h1")]) (raw Ex.hosted) = Ok e
    /\ addAll (Some [("host", JS.Str "h1")]) e = Ok e
    /\ exists extra, map fst (fields e) = (map fst Ex.hosted ++ extra)%list.
Proof.
  destruct (addAll_idempotent_in_place [("host", JS.Str "h1")] Ex.hosted
              eq_refl eq_refl) as (e & extra & A & B & _ & C & _).
  exists e. split; [exact A|]. split; [exact B|]. now exists extra.
Defined.

(** A name pattern with an unclosed group, and the first event. *)
Lemma bad_pattern_witness :
  exists x,
    filter Cmd.unclosed Ex.hello = Throw x
    /\ handle Cmd.unclosed Ex.two_started (Data Logs Ex.hello)
       = Crashed x Ex.two_started.
Proof.
  destruct (bad_pattern_is_fatal_at_first_event Cmd.unclosed "(")
    with (obj := Ex.hello) as [_ (x & Hx & Hh)];
    [simpl; auto | discriminate | reflexivity |].
  exists x. split; [exact Hx|]. apply Hh. vm_compute. auto.
Defined.

(** The plain run of [Ex.two_opts], at its end. *)
Lemma plain_mode_witness :
  handshakes Ex.two_finished = []
  /\ handle Ex.two_opts Ex.two_finished (SecureConnect 0 false)
     = Running Ex.two_finished.
Proof.
  assert (Hs : start Ex.two_opts = Running Ex.two_started)
    by (vm_compute; reflexivity).
  assert (Hr : run Ex.two_opts (Running Ex.two_started) Ex.two_events
               = Running Ex.two_finished) by (vm_compute; reflexivity).
  destruct (plain_mode_has_no_handshake Ex.two_opts Ex.two_started
              Ex.two_events Ex.two_finished eq_refl Hs Hr) as [H H'].
  split; [exact H | apply H'].
Defined.


(** The run of [Ex.two_opts]: the count goes from 2 to 0. *)
Lemma open_count_bounds_witness :
  (0 <= streamsOpened Ex.two_finished <= streamsOpened Ex.two_started)%Z
  /\ (streamsOpened Ex.two_started <= 3)%Z.
Proof.
  assert (Hs : start Ex.two_opts = Running Ex.two_started)
    by (vm_compute; reflexivity).
  assert (Hr : run Ex.two_opts (Running Ex.two_started) Ex.two_events
               = Running Ex.two_finished) by (vm_compute; reflexivity).
  exact (open_count_bounds Ex.two_opts Ex.two_started Ex.two_events
           Ex.two_finished Hs Hr).
Defined.


(** The first handshake of a secure start completes unauthorized. *)
Lemma unauthorized_callback_witness :
  secure Ex.tls_opts = true
  /\ In 0%nat (handshakes Ex.tls_started)
  /\ exists s',
       handle Ex.tls_opts Ex.tls_started (SecureConnect 0 false)
       = Crashed (Error "secure connection not authorized") s'
       /\ log s' = log Ex.tls_started
       /\ run Ex.tls_opts (handle Ex.tls_opts Ex.tls_started (SecureConnect 0 false))
            [OutEnded 0; SourceEnded Logs]
          = Crashed (Error "secure connection not authorized") s'.
Proof.
  assert (Hs : start Ex.tls_opts = Running Ex.tls_started)
    by (vm_compute; reflexivity).
  destruct (unauthorized_callback_is_fatal Ex.tls_opts Ex.tls_started []
              Ex.tls_started eq_refl Hs eq_refl) as [_ H].
  assert (Hin : In 0%nat (handshakes Ex.tls_started))
    by (vm_compute; auto).
  destruct (H 0%nat Hin) as (s' & A & B & C).
  split; [reflexivity|]. split; [exact Hin|].
  exists s'. auto.
Defined.

End MoreInstances.
